(** * Resource-tree traversal: a shallow embedding of
      [src/pyramid/traversal.py]

    The development follows the module top to bottom: Python text and the
    string primitives the module uses, the path splitter
    ([split_path_info]), the segment quoting cache ([quote_path_segment],
    [_join_path_tuple]), the lineage of a resource and its path tuple, the
    traverser ([ResourceTreeTraverser.__call__], [traverse],
    [find_resource]) and the URL adapter ([ResourceURL]).

    Conventions.
    - A Python [str] is the list of its code points ([N]); a literal is
      read through the coercion [u].  [bytes] are lists of byte values.
    - A tuple or list of values is a Rocq list.
    - [@lru_cache] memoises a function of its argument; the decorated
      functions are embedded by their bodies.  The explicit module-level
      dictionary [_segment_cache] is state and is threaded. *)

From Stdlib Require Import List String Ascii NArith ZArith Bool Lia DecimalString.
Import ListNotations.
Open Scope string_scope.
Open Scope list_scope.

Set Implicit Arguments.

(* ================================================================== *)
(** ** Python text *)

Definition str := list N.
Definition bytes := list N.

Definition u (s : string) : list N :=
  map N_of_ascii (list_ascii_of_string s).
Coercion u : string >-> list.

(** Tuples of text, written as in Python: [T["a"; "b"]]. *)
Notation "'T[' x ; .. ; y ]" :=
  (@cons str x .. (@cons str y (@nil str)) ..) (only parsing).
Notation "'T[' ]" := (@nil str) (only parsing).

(** [a == b] on text. *)
Fixpoint str_eqb (a b : str) : bool :=
  match a, b with
  | [], [] => true
  | x :: a', y :: b' => N.eqb x y && str_eqb a' b'
  | _, _ => false
  end.

(** [c in chars]. *)
Definition char_in (c : N) (chars : str) : bool :=
  existsb (N.eqb c) chars.

(** [s.lstrip(chars)], [s.rstrip(chars)], [s.strip(chars)]: every leading
    (trailing) character that is in [chars] is removed. *)
Fixpoint lstrip (chars s : str) : str :=
  match s with
  | [] => []
  | c :: s' => if char_in c chars then lstrip chars s' else s
  end.

Fixpoint rstrip (chars s : str) : str :=
  match s with
  | [] => []
  | c :: s' =>
      match rstrip chars s' with
      | [] => if char_in c chars then [] else [c]
      | r => c :: r
      end
  end.

Definition strip (chars s : str) : str := rstrip chars (lstrip chars s).

(** [s.split(sep)] for a one-character separator: never the empty list;
    [''.split('/') == ['']]. *)
Fixpoint split (sep : N) (s : str) : list str :=
  match s with
  | [] => [[]]
  | c :: s' =>
      if N.eqb c sep then [] :: split sep s'
      else match split sep s' with
           | [] => [[c]]
           | w :: ws => (c :: w) :: ws
           end
  end.

(** [sep.join(items)]. *)
Fixpoint join (sep : str) (items : list str) : str :=
  match items with
  | [] => []
  | [x] => x
  | x :: rest => x ++ sep ++ join sep rest
  end.

(** [s.startswith(p)] and [s.endswith(p)]. *)
Fixpoint startswith (s p : str) : bool :=
  match p, s with
  | [], _ => true
  | y :: p', x :: s' => N.eqb x y && startswith s' p'
  | _ :: _, [] => false
  end.

Definition endswith (s p : str) : bool := startswith (rev s) (rev p).

(** Slices [l[i:]] and [l[:j]] with Python's reading of a negative bound
    (counted from the end, clipped at 0). *)
Definition slice_from {A} (l : list A) (i : Z) : list A :=
  if (i <? 0)%Z then skipn (Z.to_nat (Z.of_nat (List.length l) + i)) l
  else skipn (Z.to_nat i) l.

Definition slice_to {A} (l : list A) (j : Z) : list A :=
  if (j <? 0)%Z then firstn (Z.to_nat (Z.of_nat (List.length l) + j)) l
  else firstn (Z.to_nat j) l.

Definition slash : str := "/".
Definition empty : str := "".

(* ================================================================== *)
(** ** Path splitting: [split_path_info] *)

(** One turn of the [for segment in path.split('/')] loop on the list
    [clean]. *)
Definition clean_step (clean : list str) (segment : str) : list str :=
  if orb (str_eqb segment "") (str_eqb segment ".") then clean
  else if str_eqb segment ".." then
         match clean with
         | [] => clean
         | _ => removelast clean        (* del clean[-1] *)
         end
  else clean ++ [segment].              (* clean.append(segment) *)

Definition split_path_info (path : str) : list str :=
  let path := strip "/" path in
  fold_left clean_step (split 47 path) [].

(** The normaliser as the specification words it: strip exactly one
    leading and one trailing slash, split on slashes, then discard, pop or
    append each segment in order. *)
Definition strip_one_leading (path : str) : str :=
  match path with
  | c :: rest => if N.eqb c 47 then rest else path
  | [] => []
  end.

Definition strip_one_trailing (path : str) : str :=
  match rev path with
  | c :: rest => if N.eqb c 47 then rev rest else path
  | [] => []
  end.

Definition spec_step (acc : list str) (segment : str) : list str :=
  if str_eqb segment "" then acc
  else if str_eqb segment "." then acc
  else if str_eqb segment ".." then removelast acc
  else acc ++ [segment].

Definition spec_normalize (path : str) : list str :=
  fold_left spec_step
    (split 47 (strip_one_trailing (strip_one_leading path))) [].

(** A clean segment: not empty, not [.] and not [..]. *)
Definition clean_segment (s : str) : bool :=
  negb (str_eqb s "") && negb (str_eqb s ".") && negb (str_eqb s "..").

(* ================================================================== *)
(** ** Values, exceptions and the data model *)

(** The classes of values a path segment or a resource name takes in this
    development: [str], [bytes], [int] and [None]. *)
Inductive value :=
| VStr (s : str)
| VBytes (b : bytes)
| VInt (z : Z)
| VNone.

(** Truth value of [v], as in [v or '']. *)
Definition truthy (v : value) : bool :=
  match v with
  | VStr s => negb (str_eqb s "")
  | VBytes b => negb (str_eqb b [])
  | VInt z => negb (Z.eqb z 0)
  | VNone => false
  end.

(** [a == b] on values; values of different classes are never equal. *)
Definition value_eqb (a b : value) : bool :=
  match a, b with
  | VStr x, VStr y => str_eqb x y
  | VBytes x, VBytes y => str_eqb x y
  | VInt x, VInt y => Z.eqb x y
  | VNone, VNone => true
  | _, _ => false
  end.

(** [v.__class__ in (str, bytes)]. *)
Definition is_text_or_bytes (v : value) : bool :=
  match v with
  | VStr _ | VBytes _ => true
  | VInt _ | VNone => false
  end.

(** [str(z)] for an [int]. *)
Definition str_int (z : Z) : str := NilZero.string_of_int (Z.to_int z).

(** [repr(b)] for [bytes]: [b'...'], in double quotes when [b] holds a
    single quote and no double quote. *)
Definition hex_lower (d : N) : N := if (d <? 10)%N then (48 + d)%N else (87 + d)%N.

Definition bytes_repr_char (quote : N) (c : N) : str :=
  if N.eqb c 92 then [92; 92]%N
  else if N.eqb c 9 then [92; 116]%N
  else if N.eqb c 10 then [92; 110]%N
  else if N.eqb c 13 then [92; 114]%N
  else if N.eqb c quote then [92; c]%N
  else if (c <? 32)%N || (127 <=? c)%N then
    [92; 120; hex_lower (c / 16); hex_lower (c mod 16)]%N
  else [c].

Definition bytes_repr (b : bytes) : str :=
  let quote :=
    if char_in 39 b && negb (char_in 34 b) then 34%N else 39%N in
  [98%N; quote] ++ flat_map (bytes_repr_char quote) b ++ [quote].

(** [str(v)]. *)
Definition str_ (v : value) : str :=
  match v with
  | VStr s => s
  | VBytes b => bytes_repr b
  | VInt z => str_int z
  | VNone => "None"
  end.

(** The fields of a [UnicodeError]. *)
Record UnicodeError := mkUnicodeError {
  encoding : str;
  object_ : list N;
  start : N;
  end_ : N;
  reason : str
}.

(** Resources are Python objects: a node is a reference, the tree maps a
    reference to the attributes the module reads. *)
Definition node := nat.

Inductive key_error :=
| NoSubelement (context : node) (view_name : str)
| MissingKey (key : str).

Inductive exn :=
| KeyError (args : key_error)
| UnicodeDecodeError (e : UnicodeError)
| UnicodeEncodeError (e : UnicodeError)
| URLDecodeError (e : UnicodeError)
| TypeError.

Definition result (A : Type) := (exn + A)%type.

(** [__getitem__] is [None] when the object has no such attribute; the
    lookup itself answers [None] for [KeyError]. *)
Record Resource := mkResource {
  __name__ : value;
  __parent__ : option node;
  __getitem__ : option (str -> option node)
}.

Definition Tree := node -> Resource.

(** A route match: each entry is absent, a string ([{traverse}]) or a
    tuple of decoded elements ([*traverse]). *)
Inductive str_or_tuple :=
| AStr (s : str)
| ATuple (t : list str).

Record Matchdict := mkMatchdict {
  md_traverse : option str_or_tuple;
  md_subpath : option str_or_tuple
}.

(** What the traverser reads of a request: [environ] (a dictionary, here
    an association list), [matchdict], and the outcome of reading the
    property [path_info]. *)
Record Request := mkRequest {
  environ : list (str * str);
  matchdict : option Matchdict;
  path_info : result str
}.

Fixpoint environ_get (environ : list (str * str)) (key : str) : option str :=
  match environ with
  | [] => None
  | (k, v) :: rest => if str_eqb k key then Some v else environ_get rest key
  end.

(** The dictionary a traverser returns. *)
Record Info := mkInfo {
  context : node;
  view_name : str;
  subpath : list str;
  traversed : list str;
  virtual_root : node;
  virtual_root_path : list str;
  root : node
}.

(** What this module asks of the registry: the request factory utility
    and the traverser adapter of a resource, each possibly absent. *)
Record Registry := mkRegistry {
  queryUtility_IRequestFactory : option (str -> Request);
  queryAdapter_ITraverser : node -> option (Request -> result Info)
}.

(** Modelled from the spec: [VH_ROOT_KEY] of [pyramid.interfaces] is not
    part of the module.  Section 6: the header [X-Vhm-Root], which
    [environ] holds under the key the docstring of [virtual_root] names. *)
Definition VH_ROOT_KEY : str := "HTTP_X_VHM_ROOT".

Definition PATH_SEGMENT_SAFE : str := "~!$&'()*+,;=:@".
Definition PATH_SAFE : str := PATH_SEGMENT_SAFE ++ "/".

(* ================================================================== *)
(** ** What the module imports *)

(** Functions of other modules and of the Python library that
    [traversal.py] calls and whose bodies are not part of it.
    - [url_quote val safe]: [pyramid.encode.url_quote] on text;
    - [utf8_decode b]: [b.decode('utf-8')], the fields of the
      [UnicodeDecodeError] on failure;
    - [unquote_bytes_to_wsgi]: [pyramid.compat.unquote_bytes_to_wsgi];
    - [Request_blank]: [pyramid.request.Request.blank], the default
      request factory. *)
Class Imports := {
  url_quote : str -> str -> str;
  utf8_decode : bytes -> UnicodeError + str;
  unquote_bytes_to_wsgi : bytes -> str;
  Request_blank : str -> Request
}.

(** [s.encode(codec)] for the codecs [ascii] ([bound] 128) and [latin-1]
    ([bound] 256): the code points are the bytes, unless one is not below
    [bound]; the error names the first run of such characters. *)
Fixpoint run_length (bound : N) (s : str) : N :=
  match s with
  | c :: rest => if (c <? bound)%N then 0%N else (1 + run_length bound rest)%N
  | [] => 0%N
  end.

Fixpoint first_unencodable (bound pos : N) (s : str) : option (N * N) :=
  match s with
  | [] => None
  | c :: rest =>
      if (c <? bound)%N then first_unencodable bound (pos + 1)%N rest
      else Some (pos, (pos + run_length bound s)%N)
  end.

Definition encode_ascii (s : str) : result bytes :=
  match first_unencodable 128 0 s with
  | None => inr s
  | Some (i, j) =>
      inl (UnicodeEncodeError
             (mkUnicodeError "ascii" s i j "ordinal not in range(128)"))
  end.

Definition encode_latin1 (s : str) : result bytes :=
  match first_unencodable 256 0 s with
  | None => inr s
  | Some (i, j) =>
      inl (UnicodeEncodeError
             (mkUnicodeError "latin-1" s i j "ordinal not in range(256)"))
  end.

(** Modelled from the spec: [pyramid.compat.ascii_native_] is not part of
    the module.  Section 6 takes the raw path as a string; [traverse]
    says of this call that the text must be entirely encodeable to ASCII:
    the text is encoded to ASCII and the bytes are read back. *)
Definition ascii_native_ (s : str) : result str := encode_ascii s.

(* ================================================================== *)
(** ** Running Python code: state, exceptions, non-termination *)

(** [_segment_cache]: a dictionary keyed by [(segment, safe)]. *)
Definition Cache := list ((value * str) * str).

Fixpoint cache_get (c : Cache) (key : value * str) : option str :=
  match c with
  | [] => None
  | ((seg, safe), r) :: rest =>
      if value_eqb seg (fst key) && str_eqb safe (snd key) then Some r
      else cache_get rest key
  end.

Definition cache_set (c : Cache) (key : value * str) (r : str) : Cache :=
  (key, r) :: c.

(** A call returns, raises, or does not come back ([Diverge]: the fuel
    of a loop over [lineage] ran out). *)
Inductive outcome (A : Type) :=
| Return (a : A)
| Raise (e : exn)
| Diverge.
Arguments Return {A} a.
Arguments Raise {A} e.
Arguments Diverge {A}.

Definition M (A : Type) := Cache -> outcome A * Cache.

Definition ret {A} (a : A) : M A := fun c => (Return a, c).
Definition raise {A} (e : exn) : M A := fun c => (Raise e, c).
Definition diverge {A} : M A := fun c => (Diverge, c).
Definition bind {A B} (m : M A) (k : A -> M B) : M B :=
  fun c =>
    match m c with
    | (Return a, c') => k a c'
    | (Raise e, c') => (Raise e, c')
    | (Diverge, c') => (Diverge, c')
    end.
Definition of_result {A} (r : result A) : outcome A :=
  match r with
  | inl e => Raise e
  | inr a => Return a
  end.
Definition lift {A} (r : result A) : M A := fun c => (of_result r, c).

Notation "x <- m ;; k" := (bind m (fun x => k))
  (at level 61, m at next level, right associativity).

(* ================================================================== *)
(** ** The functions of [traversal.py] *)

Section Embedding.
Context {I : Imports}.

(** Modelled from the spec: [pyramid.location.lineage] is not part of the
    module.  Section 4.4: produces [node], then its parent, then its
    grandparent, terminating after the node whose parent is none.  The
    generator does not end on a cyclic chain; [fuel] bounds the walk. *)
Fixpoint lineage (fuel : nat) (t : Tree) (resource : node)
  : option (list node) :=
  match fuel with
  | O => None
  | S fuel' =>
      match __parent__ (t resource) with
      | None => Some [resource]
      | Some parent =>
          match lineage fuel' t parent with
          | Some rest => Some (resource :: rest)
          | None => None
          end
      end
  end.

Definition lineage_M (fuel : nat) (t : Tree) (resource : node)
  : M (list node) :=
  match lineage fuel t resource with
  | Some l => ret l
  | None => diverge
  end.

(** [for location in lineage(resource): if location.__parent__ is None:
    resource = location; break]. *)
Fixpoint find_root_loop (t : Tree) (locations : list node) (resource : node)
  : node :=
  match locations with
  | [] => resource
  | location :: rest =>
      match __parent__ (t location) with
      | None => location
      | Some _ => find_root_loop t rest resource
      end
  end.

Definition find_root (fuel : nat) (t : Tree) (resource : node) : M node :=
  locations <- lineage_M fuel t resource ;;
  ret (find_root_loop t locations resource).

(** Modelled from the spec: [pyramid.compat.native_] is not part of the
    module.  Section 4.1, [encodeSegment], takes text: text is returned
    as it is, bytes are decoded as UTF-8, anything else is refused by
    [str(s, encoding)]. *)
Definition native_ (s : value) : result str :=
  match s with
  | VStr x => inr x
  | VBytes b =>
      match utf8_decode b with
      | inl e => inl (UnicodeDecodeError e)
      | inr x => inr x
      end
  | _ => inl TypeError
  end.

Definition quote_path_segment (segment : value) (safe : str) : M str :=
  fun _segment_cache =>
    match cache_get _segment_cache (segment, safe) with
    | Some r => (Return r, _segment_cache)
    | None =>
        let segment :=
          if negb (is_text_or_bytes segment) then VStr (str_ segment)
          else segment in
        match native_ segment with
        | inl e => (Raise e, _segment_cache)
        | inr s =>
            let result := url_quote s safe in
            (Return result, cache_set _segment_cache (segment, safe) result)
        end
    end.

(** [[quote_path_segment(x) for x in tuple]]. *)
Fixpoint quote_each (tuple : list value) : M (list str) :=
  match tuple with
  | [] => ret []
  | x :: rest =>
      q <- quote_path_segment x PATH_SEGMENT_SAFE ;;
      qs <- quote_each rest ;;
      ret (q :: qs)
  end.

(** [tuple and '/'.join([...]) or '/']. *)
Definition _join_path_tuple (tuple : list value) : M str :=
  match tuple with
  | [] => ret slash
  | _ =>
      qs <- quote_each tuple ;;
      let joined := join "/" qs in
      if str_eqb joined "" then ret slash else ret joined
  end.

(** [[loc.__name__ or '' for loc in lineage(resource)]], reversed, then
    extended by [elements]. *)
Definition name_or_empty (t : Tree) (loc : node) : value :=
  if truthy (__name__ (t loc)) then __name__ (t loc) else VStr "".

Definition _resource_path_list (fuel : nat) (t : Tree) (resource : node)
  (elements : list value) : M (list value) :=
  locations <- lineage_M fuel t resource ;;
  let path := map (name_or_empty t) locations in
  let path := rev path in
  let path := path ++ elements in
  ret path.

Definition resource_path_tuple (fuel : nat) (t : Tree) (resource : node)
  (elements : list value) : M (list value) :=
  _resource_path_list fuel t resource elements.

Definition resource_path (fuel : nat) (t : Tree) (resource : node)
  (elements : list value) : M str :=
  tuple <- resource_path_tuple fuel t resource elements ;;
  _join_path_tuple tuple.

(** Modelled from the spec: [pyramid.compat.decode_path_info] is not
    part of the module.  Section 4.1, [decodeSegment]: the bytes are
    decoded as UTF-8; the bytes of a WSGI string are its Latin-1
    encoding, as the docstring of [traversal_path_info] says. *)
Definition decode_path_info (path : str) : result str :=
  match encode_latin1 path with
  | inl e => inl e
  | inr b =>
      match utf8_decode b with
      | inl e => inl (UnicodeDecodeError e)
      | inr x => inr x
      end
  end.

Definition traversal_path_info (path : str) : result (list str) :=
  match decode_path_info path with
  | inl (UnicodeDecodeError e) =>
      inl (URLDecodeError
             (mkUnicodeError (encoding e) (object_ e) (start e) (end_ e)
                (reason e)))
  | inl e => inl e
  | inr path => inr (split_path_info path)
  end.

(** The argument is text or bytes. *)
Definition traversal_path (path : str + bytes) : result (list str) :=
  match (match path with
         | inl s => encode_ascii s       (* path.encode('ascii') *)
         | inr b => inr b
         end) with
  | inl e => inl e
  | inr b =>
      let path := unquote_bytes_to_wsgi b in
      traversal_path_info path
  end.

(** *** [ResourceTreeTraverser.__call__] *)

Definition VIEW_SELECTOR : str := "@@".

(** [x or slash]. *)
Definition or_slash (x : str) : str := if str_eqb x "" then slash else x.

Section Loop.
Variables (t : Tree) (root : node) (subpath : list str).
Variables (vroot_tuple vpath_tuple : list str) (vroot_idx : Z).

(** The dictionary of the three early returns; they differ in
    [view_name] only. *)
Definition early_return (ob vroot : node) (view_name : str) (i : Z) : Info :=
  mkInfo ob view_name
    (slice_from vpath_tuple (i + 1))
    (slice_to vpath_tuple (vroot_idx + i + 1))
    vroot vroot_tuple root.

(** [for segment in vpath_tuple: ...] from the state [(ob, vroot, i)],
    followed by the final [return]. *)
Fixpoint traverse_loop (segments : list str) (ob vroot : node) (i : Z)
  : Info :=
  match segments with
  | [] => mkInfo ob empty subpath vpath_tuple vroot vroot_tuple root
  | segment :: rest =>
      if str_eqb (slice_to segment 2) VIEW_SELECTOR then
        early_return ob vroot (slice_from segment 2) i
      else
        match __getitem__ (t ob) with
        | None =>                                   (* AttributeError *)
            early_return ob vroot segment i
        | Some getitem =>
            match getitem segment with
            | None =>                               (* KeyError *)
                early_return ob vroot segment i
            | Some next =>
                let vroot := if (i =? vroot_idx)%Z then next else vroot in
                traverse_loop rest next vroot (i + 1)%Z
            end
        end
  end.

End Loop.

(** [path] and [subpath] of a request, from the route match when there
    is one, from [request.path_info] otherwise. *)
Definition request_path (request : Request) : result (str * list str) :=
  match matchdict request with
  | Some matchdict =>
      let path :=
        match md_traverse matchdict with
        | None => AStr slash
        | Some (AStr s) => AStr (or_slash s)
        | Some (ATuple []) => AStr slash
        | Some (ATuple tup) => ATuple tup
        end in
      let path :=
        match path with
        | ATuple tup => or_slash ("/" ++ join slash tup)
        | AStr s => s
        end in
      let subpath :=
        match md_subpath matchdict with
        | None => []
        | Some (ATuple tup) => tup
        | Some (AStr s) => split_path_info s
        end in
      inr (path, subpath)
  | None =>
      match path_info request with
      | inr p => inr (or_slash p, [])
      | inl (KeyError _) => inr (slash, [])
      | inl (UnicodeDecodeError e) =>
          inl (URLDecodeError
                 (mkUnicodeError (encoding e) (object_ e) (start e) (end_ e)
                    (reason e)))
      | inl e => inl e
      end
  end.

(** [vroot_tuple], [vpath] and [vroot_idx]. *)
Definition request_vroot (request : Request) (path : str)
  : result (list str * str * Z) :=
  match environ_get (environ request) VH_ROOT_KEY with
  | Some header =>
      match decode_path_info header with
      | inl e => inl e
      | inr vroot_path =>
          let vroot_tuple := split_path_info vroot_path in
          let vpath := vroot_path ++ path in
          let vroot_idx := (Z.of_nat (List.length vroot_tuple) - 1)%Z in
          inr (vroot_tuple, vpath, vroot_idx)
      end
  | None => inr ([], path, (-1)%Z)
  end.

Definition ResourceTreeTraverser_call (t : Tree) (self_root : node)
  (request : Request) : result Info :=
  match request_path request with
  | inl e => inl e
  | inr (path, subpath) =>
      match request_vroot request path with
      | inl e => inl e
      | inr (vroot_tuple, vpath, vroot_idx) =>
          let root := self_root in
          let ob := root in
          let vroot := root in
          if str_eqb vpath slash then
            let vpath_tuple := @nil str in
            inr (mkInfo ob empty subpath vpath_tuple vroot vroot_tuple root)
          else
            let i := 0%Z in
            let vpath_tuple := split_path_info vpath in
            inr (traverse_loop t root subpath vroot_tuple vpath_tuple
                   vroot_idx vpath_tuple ob vroot i)
      end
  end.

(** *** [traverse] and [find_resource] *)

(** The [path] argument: a string or a tuple. *)
Inductive path_arg :=
| PStr (s : str)
| PTuple (tuple : list value).

Definition traverse (fuel : nat) (reg : Registry) (t : Tree)
  (resource : node) (path : path_arg) : M Info :=
  path <- match path with
          | PTuple [] => ret (u "")
          | PTuple tuple => _join_path_tuple tuple
          | PStr s => ret s
          end ;;
  path <- lift (ascii_native_ path) ;;
  resource <- (if startswith path "/" then find_root fuel t resource
               else ret resource) ;;
  let request_factory :=
    match queryUtility_IRequestFactory reg with
    | None => Request_blank
    | Some factory => factory
    end in
  let request := request_factory path in
  let traverser :=
    match queryAdapter_ITraverser reg resource with
    | None => ResourceTreeTraverser_call t resource
    | Some adapter => adapter
    end in
  lift (traverser request).

Definition find_resource (fuel : nat) (reg : Registry) (t : Tree)
  (resource : node) (path : path_arg) : M node :=
  path <- match path with
          | PStr s => s' <- lift (ascii_native_ s) ;; ret (PStr s')
          | PTuple _ => ret path
          end ;;
  D <- traverse fuel reg t resource path ;;
  let view_name := view_name D in
  let context := context D in
  if negb (str_eqb view_name "") then
    raise (KeyError (NoSubelement context view_name))
  else ret context.

(** *** [ResourceURL] *)

Record ResourceURL := mkResourceURL {
  virtual_path : str;
  physical_path : str;
  virtual_path_tuple : list value;
  physical_path_tuple : list value
}.

Fixpoint tuple_eqb (a b : list value) : bool :=
  match a, b with
  | [], [] => true
  | x :: a', y :: b' => value_eqb x y && tuple_eqb a' b'
  | _, _ => false
  end.

Definition ResourceURL_init (fuel : nat) (t : Tree) (resource : node)
  (request : Request) : M ResourceURL :=
  physical_path_tuple <- resource_path_tuple fuel t resource [] ;;
  physical_path <- _join_path_tuple physical_path_tuple ;;
  let '(physical_path_tuple, physical_path) :=
    if negb (tuple_eqb physical_path_tuple [VStr ""]) then
      (physical_path_tuple ++ [VStr ""], physical_path ++ "/")
    else (physical_path_tuple, physical_path) in
  let virtual_path := physical_path in
  let virtual_path_tuple := physical_path_tuple in
  let vroot_path := environ_get (environ request) VH_ROOT_KEY in
  let '(virtual_path_tuple, virtual_path) :=
    match vroot_path with
    | Some vroot_path =>
        let vroot_path := rstrip "/" vroot_path in
        if negb (str_eqb vroot_path "")
           && startswith physical_path vroot_path then
          let vroot_path_tuple := split 47 vroot_path in
          let numels := Z.of_nat (List.length vroot_path_tuple) in
          (VStr "" :: slice_from physical_path_tuple numels,
           slice_from physical_path (Z.of_nat (List.length vroot_path)))
        else (virtual_path_tuple, virtual_path)
    | None => (virtual_path_tuple, virtual_path)
    end in
  ret (mkResourceURL virtual_path physical_path virtual_path_tuple
         physical_path_tuple).

End Embedding.

(* ================================================================== *)
(** ** Specification devices *)

Section Specification.
Context {I : Imports}.

(** What [quote_path_segment] computes when the cache has no entry. *)
Definition coerce (segment : value) : value :=
  if negb (is_text_or_bytes segment) then VStr (str_ segment) else segment.

Definition quoted (segment : value) (safe : str) : result str :=
  match native_ (coerce segment) with
  | inl e => inl e
  | inr s => inr (url_quote s safe)
  end.

Fixpoint quoted_each (tuple : list value) : result (list str) :=
  match tuple with
  | [] => inr []
  | x :: rest =>
      match quoted x PATH_SEGMENT_SAFE with
      | inl e => inl e
      | inr q =>
          match quoted_each rest with
          | inl e => inl e
          | inr qs => inr (q :: qs)
          end
      end
  end.

Definition joined (tuple : list value) : result str :=
  match tuple with
  | [] => inr slash
  | _ =>
      match quoted_each tuple with
      | inl e => inl e
      | inr qs => inr (or_slash (join "/" qs))
      end
  end.

(** The invariant of [_segment_cache]: an entry is keyed by text or
    bytes and holds the quoting of its key. *)
Definition cache_ok (c : Cache) : Prop :=
  Forall (fun entry =>
            quoted (fst (fst entry)) (snd (fst entry)) = inr (snd entry)
            /\ coerce (fst (fst entry)) = fst (fst entry)) c.

(** [chain t resource locations]: following [__parent__] from [resource]
    visits [locations] and ends at a resource without parent. *)
Inductive chain (t : Tree) : node -> list node -> Prop :=
| chain_root resource :
    __parent__ (t resource) = None -> chain t resource [resource]
| chain_parent resource parent locations :
    __parent__ (t resource) = Some parent ->
    chain t parent locations ->
    chain t resource (resource :: locations).

(** The resources met from [ob] along [segments], one lookup per
    segment, as long as no segment carries the view selector and every
    lookup answers. *)
Fixpoint descend (t : Tree) (ob : node) (segments : list str)
  : option (list node) :=
  match segments with
  | [] => Some []
  | segment :: rest =>
      if str_eqb (slice_to segment 2) VIEW_SELECTOR then None
      else
        match __getitem__ (t ob) with
        | None => None
        | Some getitem =>
            match getitem segment with
            | None => None
            | Some next =>
                match descend t next rest with
                | Some nodes => Some (next :: nodes)
                | None => None
                end
            end
        end
  end.

(** The value of [vroot] after the loop has met [nodes] from index [i]. *)
Fixpoint vroot_after (vroot_idx i : Z) (vroot : node) (nodes : list node)
  : node :=
  match nodes with
  | [] => vroot
  | next :: more =>
      vroot_after vroot_idx (i + 1)
        (if (i =? vroot_idx)%Z then next else vroot) more
  end.

(** A segment that a round trip through a path string keeps: clean,
    without a slash, and not opened by the view selector. *)
Definition plain_segment (s : str) : bool :=
  clean_segment s && negb (char_in 47 s)
  && negb (str_eqb (slice_to s 2) VIEW_SELECTOR).

(** [loc] is what the lookup of its parent answers for its name. *)
Definition child_of_parent (t : Tree) (loc : node) : Prop :=
  match __parent__ (t loc) with
  | None => True
  | Some parent =>
      exists getitem s,
        __getitem__ (t parent) = Some getitem
        /\ __name__ (t loc) = VStr s
        /\ getitem s = Some loc
  end.

(** The default request factory reads the path string [quoted_path] as
    the text [decoded]: the string is ASCII, the request it makes has no
    route match and no virtual-root header, and its [path_info] is
    [decoded]. *)
Definition decodes_to (quoted_path decoded : str) : Prop :=
  ascii_native_ quoted_path = inr quoted_path
  /\ matchdict (Request_blank quoted_path) = None
  /\ environ_get (environ (Request_blank quoted_path)) VH_ROOT_KEY = None
  /\ path_info (Request_blank quoted_path) = inr decoded.

End Specification.

(* ================================================================== *)
(** ** The segment codec of the specification *)

Module Codec.
Open Scope N_scope.

Definition is_alnum (c : N) : bool :=
  ((48 <=? c) && (c <=? 57)) || ((65 <=? c) && (c <=? 90))
  || ((97 <=? c) && (c <=? 122)).

Definition hex_digit (d : N) : N := if d <? 10 then 48 + d else 55 + d.

Definition utf8_encode_char (c : N) : bytes :=
  if c <? 128 then [c]
  else if c <? 2048 then [192 + c / 64; 128 + c mod 64]
  else if c <? 65536 then
    [224 + c / 4096; 128 + (c / 64) mod 64; 128 + c mod 64]
  else
    [240 + c / 262144; 128 + (c / 4096) mod 64; 128 + (c / 64) mod 64;
     128 + c mod 64].

Definition utf8_encode (s : str) : bytes := flat_map utf8_encode_char s.

Definition percent_encode_byte (safe : str) (b : N) : str :=
  if is_alnum b || char_in b safe then [b]
  else [37; hex_digit (b / 16); hex_digit (b mod 16)].

(** Modelled from the spec: [pyramid.encode.url_quote] is not part of the
    module.  Section 4.1, [encodeSegment]: UTF-8-encodes the text, then
    percent-encodes every byte not alphanumeric and not in [safe]. *)
Definition url_quote (val safe : str) : str :=
  flat_map (percent_encode_byte safe) (utf8_encode val).

Definition hex_value (c : N) : option N :=
  if (48 <=? c) && (c <=? 57) then Some (c - 48)
  else if (65 <=? c) && (c <=? 70) then Some (c - 55)
  else if (97 <=? c) && (c <=? 102) then Some (c - 87)
  else None.

(** Percent-decoding: [%XX] becomes the byte [XX]; a [%] that no two hex
    digits follow stays. *)
Fixpoint unquote_to_bytes (s : str) : bytes :=
  match s with
  | [] => []
  | c :: rest =>
      if c =? 37 then
        match rest with
        | h :: l :: rest' =>
            match hex_value h, hex_value l with
            | Some a, Some b => (16 * a + b) :: unquote_to_bytes rest'
            | _, _ => c :: unquote_to_bytes rest
            end
        | _ => c :: unquote_to_bytes rest
        end
      else c :: unquote_to_bytes rest
  end.

Definition is_continuation (b : N) : bool := (128 <=? b) && (b <? 192).

Definition in_range (lo hi b : N) : bool := (lo <=? b) && (b <=? hi).

Section Utf8.
Variable object : bytes.

Definition decode_error (i j : N) (why : str) : UnicodeError + str :=
  inl (mkUnicodeError "utf-8" object i j why).

Definition end_of_data (i : N) : UnicodeError + str :=
  decode_error i (N.of_nat (List.length object)) "unexpected end of data".

Definition push (c : N) (r : UnicodeError + str) : UnicodeError + str :=
  match r with
  | inl e => inl e
  | inr s => inr (c :: s)
  end.

(** Strict UTF-8 (RFC 3629): shortest forms only, no surrogates, nothing
    above U+10FFFF.  [pos] is the index of the head of [b] in [object]. *)
Fixpoint utf8_decode_at (pos : N) (b : bytes) {struct b}
  : UnicodeError + str :=
  match b with
  | [] => inr []
  | b0 :: r0 =>
      if b0 <? 128 then push b0 (utf8_decode_at (pos + 1) r0)
      else if b0 <? 194 then decode_error pos (pos + 1) "invalid start byte"
      else if b0 <? 224 then
        match r0 with
        | [] => end_of_data pos
        | b1 :: r1 =>
            if is_continuation b1 then
              push ((b0 - 192) * 64 + (b1 - 128))
                (utf8_decode_at (pos + 2) r1)
            else decode_error pos (pos + 1) "invalid continuation byte"
        end
      else if b0 <? 240 then
        match r0 with
        | [] => end_of_data pos
        | b1 :: r1 =>
            if in_range (if b0 =? 224 then 160 else 128)
                 (if b0 =? 237 then 159 else 191) b1 then
              match r1 with
              | [] => end_of_data pos
              | b2 :: r2 =>
                  if is_continuation b2 then
                    push ((b0 - 224) * 4096 + (b1 - 128) * 64 + (b2 - 128))
                      (utf8_decode_at (pos + 3) r2)
                  else decode_error pos (pos + 2) "invalid continuation byte"
              end
            else decode_error pos (pos + 1) "invalid continuation byte"
        end
      else if b0 <? 245 then
        match r0 with
        | [] => end_of_data pos
        | b1 :: r1 =>
            if in_range (if b0 =? 240 then 144 else 128)
                 (if b0 =? 244 then 143 else 191) b1 then
              match r1 with
              | [] => end_of_data pos
              | b2 :: r2 =>
                  if is_continuation b2 then
                    match r2 with
                    | [] => end_of_data pos
                    | b3 :: r3 =>
                        if is_continuation b3 then
                          push ((b0 - 240) * 262144 + (b1 - 128) * 4096
                                + (b2 - 128) * 64 + (b3 - 128))
                            (utf8_decode_at (pos + 4) r3)
                        else
                          decode_error pos (pos + 3)
                            "invalid continuation byte"
                    end
                  else decode_error pos (pos + 2) "invalid continuation byte"
              end
            else decode_error pos (pos + 1) "invalid continuation byte"
        end
      else decode_error pos (pos + 1) "invalid start byte"
  end.

End Utf8.

(** Modelled from the spec: the UTF-8 decoder is Python's.  Section 4.1,
    [decodeSegment]: decodes the bytes as UTF-8 text and fails with the
    encoding, the offending bytes, their position and the reason when
    they are not valid UTF-8. *)
Definition utf8_decode (b : bytes) : UnicodeError + str :=
  utf8_decode_at b 0 b.

(** Modelled from the spec: [pyramid.compat.unquote_bytes_to_wsgi] is not
    part of the module.  Section 4.2: percent-decoding of a raw path; the
    bytes are read back as the Latin-1 string WSGI uses. *)
Definition unquote_bytes_to_wsgi (b : bytes) : str := unquote_to_bytes b.

(** The part of [path] before the first [?]. *)
Fixpoint before_query (path : str) : str :=
  match path with
  | [] => []
  | c :: rest => if c =? 63 then [] else c :: before_query rest
  end.

(** Modelled from the spec: the request class is outside the module
    (section 1).  A blank request for a path without a URL scheme: no
    route match, [PATH_INFO] holds the percent-decoded path, and
    [path_info] reads it back as UTF-8 text (section 4.1). *)
Definition Request_blank (path : str) : Request :=
  let wsgi := unquote_to_bytes (before_query path) in
  mkRequest [(u "PATH_INFO", wsgi)] None
    (match utf8_decode wsgi with
     | inl e => inl (UnicodeDecodeError e)
     | inr x => inr x
     end).

(** A code point that UTF-8 encodes: below 0x110000 and no surrogate. *)
Definition scalar (c : N) : Prop :=
  c < 1114112 /\ ~ (55296 <= c <= 57343).

(** The characters of a quoted path: ASCII, and no question mark. *)
Definition path_char (c : N) : Prop := c < 128 /\ c <> 63.

(** Each segment behind a slash. *)
Definition slashed (segs : list str) : str :=
  flat_map (fun s => 47 :: s) segs.

End Codec.

#[global] Instance spec_imports : Imports := {
  url_quote := Codec.url_quote;
  utf8_decode := Codec.utf8_decode;
  unquote_bytes_to_wsgi := Codec.unquote_bytes_to_wsgi;
  Request_blank := Codec.Request_blank
}.

(** The registry with no request factory and no traverser registered. *)
Definition empty_registry : Registry :=
  mkRegistry None (fun _ => None).

(* ================================================================== *)
(** ** Example trees *)

(** A lookup with the single entry [name]. *)
Definition entry (name : str) (child : node) : str -> option node :=
  fun segment => if str_eqb segment name then Some child else None.

(** A root that has a lookup and no entry. *)
Definition bare_tree : Tree :=
  fun _ => mkResource VNone None (Some (fun _ => None)).

(** [root -> a], where [a] has no lookup. *)
Definition leaf_tree : Tree :=
  fun n =>
    match n with
    | 0 => mkResource VNone None (Some (entry "a" 1))
    | _ => mkResource (VStr "a") (Some 0) None
    end.

(** [root -> vh -> root -> page]. *)
Definition vhost_tree : Tree :=
  fun n =>
    match n with
    | 0 => mkResource VNone None (Some (entry "vh" 1))
    | 1 => mkResource (VStr "vh") (Some 0) (Some (entry "root" 2))
    | 2 => mkResource (VStr "root") (Some 1) (Some (entry "page" 3))
    | _ => mkResource (VStr "page") (Some 2) None
    end.

(** A root with one child, named [@@edit]. *)
Definition selector_tree : Tree :=
  fun n =>
    match n with
    | 0 => mkResource VNone None (Some (entry "@@edit" 1))
    | _ => mkResource (VStr "@@edit") (Some 0) None
    end.

(** A root with one child, named [a/b]. *)
Definition slash_tree : Tree :=
  fun n =>
    match n with
    | 0 => mkResource VNone None (Some (entry "a/b" 1))
    | _ => mkResource (VStr "a/b") (Some 0) None
    end.

(** A resource that names the root as its parent, under a root whose
    lookup has no entry. *)
Definition orphan_tree : Tree :=
  fun n =>
    match n with
    | 0 => mkResource VNone None (Some (fun _ => None))
    | _ => mkResource (VStr "a") (Some 0) None
    end.



(* ================================================================== *)
(** ** [find_interface] and [virtual_root] *)

(** The second argument of [find_interface]: a class, or an interface
    (what [IInterface.providedBy] tells apart). *)
Inductive class_or_interface :=
| AClass (cls : nat)
| AnInterface (iface : nat).

(** What [find_interface] asks of the type system: [isinstance(arg, cls)]
    and [iface.providedBy(arg)]. *)
Record Typing := mkTyping {
  isinstance : node -> nat -> bool;
  providedBy : nat -> node -> bool
}.

Section MoreFunctions.
Context {I : Imports}.

(** [for location in lineage(resource): if test(location): return
    location].  The generator is read one location at a time, so the loop
    returns at the first match without reading the rest of the chain;
    [fuel] bounds the walk as for [lineage]. *)
Fixpoint find_interface_loop (fuel : nat) (t : Tree) (test : node -> bool)
  (location : node) : outcome (option node) :=
  match fuel with
  | O => Diverge
  | S fuel' =>
      if test location then Return (Some location)
      else
        match __parent__ (t location) with
        | None => Return None
        | Some parent => find_interface_loop fuel' t test parent
        end
  end.

Definition find_interface (fuel : nat) (t : Tree) (types : Typing)
  (resource : node) (class_or_iface : class_or_interface)
  : M (option node) :=
  let test :=
    match class_or_iface with
    | AnInterface iface => providedBy types iface
    | AClass cls => fun arg => isinstance types arg cls
    end in
  fun c => (find_interface_loop fuel t test resource, c).

(** [virtual_root(resource, request)], with an underscore since
    [virtual_root] is a field of the traverser's result.  [url_adapter]
    is what [reg.queryMultiAdapter((resource, request), IResourceURL)]
    answers and
    [request_root] is the attribute [request.root], absent when reading
    it raises [AttributeError]. *)
Definition virtual_root_ (fuel : nat) (reg : Registry) (t : Tree)
  (resource : node) (request : Request) (url_adapter : option ResourceURL)
  (request_root : option node) : M node :=
  url_adapter <- match url_adapter with
                 | Some adapter => ret adapter
                 | None => ResourceURL_init fuel t resource request
                 end ;;
  let vpath := virtual_path url_adapter in
  let rpath := physical_path url_adapter in
  if negb (str_eqb rpath vpath) && endswith rpath vpath then
    let vroot_path := slice_to rpath (- Z.of_nat (List.length vpath)) in
    find_resource fuel reg t resource (PStr vroot_path)
  else
    match request_root with
    | Some request_root => ret request_root
    | None => find_root fuel t resource
    end.

(** The body of [traverse] on a string, after the conversion to ASCII. *)
Definition traverse_from (reg : Registry) (t : Tree) (path : str)
  (resource : node) : M Info :=
  let request_factory :=
    match queryUtility_IRequestFactory reg with
    | None => Request_blank
    | Some factory => factory
    end in
  let request := request_factory path in
  let traverser :=
    match queryAdapter_ITraverser reg resource with
    | None => ResourceTreeTraverser_call t resource
    | Some adapter => adapter
    end in
  lift (traverser request).

(** The first location of a list that passes [test]. *)
Fixpoint first_match (test : node -> bool) (locations : list node)
  : option node :=
  match locations with
  | [] => None
  | location :: rest =>
      if test location then Some location else first_match test rest
  end.

End MoreFunctions.

(** An instance of [DefaultRootFactory]: no parent, no name, no lookup. *)
Definition DefaultRootFactory : Resource := mkResource VNone None None.

(** A segment that [split_path_info] keeps: clean and without slash. *)
Definition kept_segment (s : str) : bool :=
  clean_segment s && negb (char_in 47 s).

(** [root -> a -> b], with an interface that [a] and the root provide. *)
Definition typed_tree : Tree :=
  fun n =>
    match n with
    | 0 => mkResource VNone None (Some (entry "a" 1))
    | 1 => mkResource (VStr "a") (Some 0) (Some (entry "b" 2))
    | _ => mkResource (VStr "b") (Some 1) None
    end.

Definition typed_tree_types : Typing :=
  mkTyping (fun arg cls => Nat.eqb arg cls)
    (fun iface arg => Nat.leb arg 1).

(** A tree whose resources are all [DefaultRootFactory] instances. *)
Definition default_root_tree : Tree := fun _ => DefaultRootFactory.

(** A request for [/page] behind the virtual root [/vh/root]. *)
Definition vhost_request : Request :=
  mkRequest [(VH_ROOT_KEY, u "/vh/root/")] None (inr (u "/page")).

(** A request of a route that matched [*traverse] and [{subpath}]. *)
Definition route_request : Request :=
  mkRequest []
    (Some (mkMatchdict (Some (ATuple T["a"])) (Some (AStr "x/y"))))
    (inr (u "/elsewhere")).

(** The URL adapter of [page] for [vhost_request]. *)
Definition vhost_page_url : ResourceURL :=
  mkResourceURL "/page/" "/vh/root/page/"
    [VStr ""; VStr "page"; VStr ""]
    [VStr ""; VStr "vh"; VStr "root"; VStr "page"; VStr ""].
(* ================================================================== *)
(** ** Text: basic facts *)

Lemma str_eqb_eq (a b : str) : str_eqb a b = true <-> a = b.
Proof.
  revert b; induction a as [|x a IH]; intros [|y b]; simpl; split;
    try congruence; try reflexivity.
  - intros H. apply andb_prop in H as [Hx Hab].
    apply N.eqb_eq in Hx. apply IH in Hab. congruence.
  - intros H. injection H as -> ->.
    rewrite N.eqb_refl. simpl. apply IH. reflexivity.
Qed.

Lemma str_eqb_refl (a : str) : str_eqb a a = true.
Proof. apply str_eqb_eq. reflexivity. Qed.

Lemma str_eqb_neq (a b : str) : str_eqb a b = false <-> a <> b.
Proof.
  split.
  - intros H E. apply str_eqb_eq in E. congruence.
  - intros H. destruct (str_eqb a b) eqn:E; [|reflexivity].
    apply str_eqb_eq in E. contradiction.
Qed.

Lemma split_not_nil (sep : N) (s : str) : split sep s <> [].
Proof.
  destruct s as [|c s]; simpl; [discriminate|].
  destruct (N.eqb c sep); [discriminate|].
  destruct (split sep s); discriminate.
Qed.

Lemma split_sep_cons (sep : N) (s : str) :
  split sep (sep :: s) = [] :: split sep s.
Proof. simpl. rewrite N.eqb_refl. reflexivity. Qed.

Lemma split_app_sep (sep : N) (s : str) :
  split sep (s ++ [sep]) = split sep s ++ [[]].
Proof.
  induction s as [|c s IH]; simpl.
  - rewrite N.eqb_refl. reflexivity.
  - destruct (N.eqb c sep); rewrite IH; [reflexivity|].
    destruct (split sep s) as [|w ws] eqn:E; [|reflexivity].
    exfalso. exact (split_not_nil _ _ E).
Qed.

Lemma split_repeat_sep_l (sep : N) (k : nat) (s : str) :
  split sep (repeat sep k ++ s) = repeat [] k ++ split sep s.
Proof.
  induction k as [|k IH]; simpl; [reflexivity|].
  rewrite N.eqb_refl, IH. reflexivity.
Qed.

Lemma split_repeat_sep_r (sep : N) (k : nat) (s : str) :
  split sep (s ++ repeat sep k) = split sep s ++ repeat [] k.
Proof.
  revert s; induction k as [|k IH]; intros s; simpl.
  - rewrite !app_nil_r. reflexivity.
  - change (sep :: repeat sep k) with ([sep] ++ repeat sep k).
    rewrite app_assoc, IH, split_app_sep, <- app_assoc. reflexivity.
Qed.

(** What [lstrip] and [rstrip] remove are runs of slashes. *)
Lemma lstrip_slash (s : str) :
  exists k, s = repeat 47%N k ++ lstrip "/" s.
Proof.
  induction s as [|c s [k IH]]; simpl.
  - exists 0. reflexivity.
  - unfold char_in. simpl. destruct (N.eqb_spec c 47) as [->|Hc]; simpl.
    + exists (S k). simpl. rewrite <- IH. reflexivity.
    + exists 0. reflexivity.
Qed.

Lemma rstrip_slash (s : str) :
  exists k, s = rstrip "/" s ++ repeat 47%N k.
Proof.
  induction s as [|c s [k IH]]; simpl.
  - exists 0. reflexivity.
  - destruct (rstrip "/" s) as [|d r] eqn:E.
    + unfold char_in. simpl. destruct (N.eqb_spec c 47) as [->|Hc]; simpl.
      * exists (S k). simpl in IH |- *. rewrite <- IH. reflexivity.
      * exists k. simpl in IH |- *. rewrite <- IH. reflexivity.
    + exists k. simpl in IH |- *. rewrite <- IH. reflexivity.
Qed.

(* ================================================================== *)
(** ** [split_path_info] *)

Lemma clean_step_spec_step (acc : list str) (segment : str) :
  clean_step acc segment = spec_step acc segment.
Proof.
  unfold clean_step, spec_step.
  destruct (str_eqb segment ""); simpl; [reflexivity|].
  destruct (str_eqb segment "."); [reflexivity|].
  destruct (str_eqb segment ".."); [|reflexivity].
  destruct acc; reflexivity.
Qed.

Lemma fold_clean_step_empties (k : nat) (acc : list str) :
  fold_left clean_step (repeat [] k) acc = acc.
Proof. induction k as [|k IH]; simpl; [reflexivity|exact IH]. Qed.

Lemma fold_spec_step (segs : list str) (acc : list str) :
  fold_left spec_step segs acc = fold_left clean_step segs acc.
Proof.
  revert acc; induction segs as [|s segs IH]; intros acc; simpl;
    [reflexivity|].
  rewrite clean_step_spec_step. apply IH.
Qed.

(** Slashes at either end of the path do not change what the loop
    accumulates. *)
Lemma clean_slashes (j k : nat) (s : str) (acc : list str) :
  fold_left clean_step (split 47 (repeat 47%N j ++ s ++ repeat 47%N k)) acc
  = fold_left clean_step (split 47 s) acc.
Proof.
  rewrite split_repeat_sep_l, split_repeat_sep_r, !fold_left_app.
  rewrite !fold_clean_step_empties. reflexivity.
Qed.

Lemma split_path_info_unstripped (path : str) :
  split_path_info path = fold_left clean_step (split 47 path) [].
Proof.
  unfold split_path_info, strip.
  destruct (lstrip_slash path) as [j Hj].
  destruct (rstrip_slash (lstrip "/" path)) as [k Hk].
  rewrite Hj at 2. rewrite Hk at 2. symmetry. apply clean_slashes.
Qed.

Lemma strip_one_leading_slashes (path : str) :
  exists j, (j <= 1)%nat /\ path = repeat 47%N j ++ strip_one_leading path.
Proof.
  destruct path as [|c rest]; simpl.
  - exists 0. split; [lia|reflexivity].
  - destruct (N.eqb_spec c 47) as [->|Hc].
    + exists 1. split; [lia|reflexivity].
    + exists 0. split; [lia|reflexivity].
Qed.

Lemma strip_one_trailing_slashes (path : str) :
  exists k, (k <= 1)%nat /\ path = strip_one_trailing path ++ repeat 47%N k.
Proof.
  unfold strip_one_trailing.
  destruct (rev path) as [|c rest] eqn:E.
  - exists 0. split; [lia|].
    apply (f_equal (@rev N)) in E. rewrite rev_involutive in E.
    subst path. reflexivity.
  - destruct (N.eqb_spec c 47) as [->|Hc].
    + exists 1. split; [lia|].
      apply (f_equal (@rev N)) in E. rewrite rev_involutive in E.
      subst path. reflexivity.
    + exists 0. split; [lia|]. rewrite app_nil_r. reflexivity.
Qed.

Lemma spec_normalize_unstripped (path : str) :
  spec_normalize path = fold_left clean_step (split 47 path) [].
Proof.
  unfold spec_normalize. rewrite fold_spec_step.
  destruct (strip_one_leading_slashes path) as (j & _ & Hj).
  destruct (strip_one_trailing_slashes (strip_one_leading path))
    as (k & _ & Hk).
  rewrite Hj at 2. rewrite Hk at 2. symmetry. apply clean_slashes.
Qed.

Lemma Forall_removelast {A} (P : A -> Prop) (l : list A) :
  Forall P l -> Forall P (removelast l).
Proof.
  induction 1 as [|x l Hx Hl IH]; simpl; [constructor|].
  destruct l; [constructor|]. constructor; assumption.
Qed.

Lemma clean_step_clean (acc : list str) (segment : str) :
  Forall (fun s => clean_segment s = true) acc ->
  Forall (fun s => clean_segment s = true) (clean_step acc segment).
Proof.
  intros H. unfold clean_step.
  destruct (str_eqb segment "") eqn:E1; simpl; [assumption|].
  destruct (str_eqb segment ".") eqn:E2; [assumption|].
  destruct (str_eqb segment "..") eqn:E3.
  - destruct acc; [assumption|]. apply Forall_removelast. assumption.
  - apply Forall_app. split; [assumption|].
    constructor; [|constructor].
    unfold clean_segment. rewrite E1, E2, E3. reflexivity.
Qed.

Lemma fold_clean_step_clean (segs acc : list str) :
  Forall (fun s => clean_segment s = true) acc ->
  Forall (fun s => clean_segment s = true) (fold_left clean_step segs acc).
Proof.
  revert acc; induction segs as [|s segs IH]; intros acc H; simpl;
    [assumption|].
  apply IH, clean_step_clean, H.
Qed.

(** C3.  [split_path_info] computes the normaliser of the specification
    (strip one slash at each end, split on slashes, discard empty and [.]
    segments, let [..] remove the last accumulated segment); its result
    holds no empty, [.] or [..] entry; and the three examples. *)
Theorem split_path_info_normalizes :
  (forall path, split_path_info path = spec_normalize path)
  /\ (forall path segment,
        In segment (split_path_info path) ->
        segment <> "" /\ segment <> "." /\ segment <> "..")
  /\ split_path_info "/a/b/../c/" = T["a"; "c"]
  /\ split_path_info "/a/./b//c" = T["a"; "b"; "c"]
  /\ split_path_info "/../a" = T["a"].
Proof.
  split; [|split; [|repeat split; reflexivity]].
  - intros path.
    rewrite split_path_info_unstripped, spec_normalize_unstripped.
    reflexivity.
  - intros path segment Hin.
    assert (H : Forall (fun s => clean_segment s = true)
                  (split_path_info path)).
    { unfold split_path_info. apply fold_clean_step_clean. constructor. }
    rewrite Forall_forall in H. specialize (H _ Hin).
    unfold clean_segment in H.
    apply andb_prop in H as [H H3]. apply andb_prop in H as [H1 H2].
    rewrite negb_true_iff in H1, H2, H3.
    rewrite str_eqb_neq in H1, H2, H3. auto.
Qed.

(* ================================================================== *)
(** ** The segment cache *)

Section SegmentCache.
Context {I : Imports}.

Lemma value_eqb_eq (a b : value) : value_eqb a b = true <-> a = b.
Proof.
  destruct a, b; simpl; split; try congruence; try reflexivity.
  - intros H. apply str_eqb_eq in H. congruence.
  - intros H. apply str_eqb_eq. congruence.
  - intros H. apply str_eqb_eq in H. congruence.
  - intros H. apply str_eqb_eq. congruence.
  - intros H. apply Z.eqb_eq in H. congruence.
  - intros H. apply Z.eqb_eq. congruence.
Qed.

Lemma cache_get_ok (c : Cache) (segment : value) (safe r : str) :
  cache_ok c ->
  cache_get c (segment, safe) = Some r ->
  quoted segment safe = inr r /\ coerce segment = segment.
Proof.
  unfold cache_ok. induction 1 as [|[[seg sf] r0] c [E K] Hc IH]; simpl.
  - discriminate.
  - destruct (value_eqb seg segment && str_eqb sf safe) eqn:Hk.
    + intros [= ->]. apply andb_prop in Hk as [H1 H2].
      apply value_eqb_eq in H1. apply str_eqb_eq in H2. subst.
      split; assumption.
    + exact IH.
Qed.

Lemma coerce_idem (segment : value) : coerce (coerce segment) = coerce segment.
Proof. destruct segment; reflexivity. Qed.

Lemma quoted_coerce (segment : value) (safe : str) :
  quoted (coerce segment) safe = quoted segment safe.
Proof. unfold quoted. rewrite coerce_idem. reflexivity. Qed.

(** The cache is transparent: under the invariant a call answers what the
    uncached computation answers, and keeps the invariant. *)
Lemma quote_path_segment_quoted (segment : value) (safe : str) (c : Cache) :
  cache_ok c ->
  exists c',
    quote_path_segment segment safe c = (of_result (quoted segment safe), c')
    /\ cache_ok c'.
Proof.
  intros Hc. unfold quote_path_segment.
  destruct (cache_get c (segment, safe)) as [r|] eqn:G.
  - destruct (cache_get_ok _ _ Hc G) as [Q _].
    exists c. rewrite Q. split; [reflexivity|assumption].
  - change (if negb (is_text_or_bytes segment) then VStr (str_ segment)
            else segment) with (coerce segment).
    unfold quoted.
    destruct (native_ (coerce segment)) as [e|s] eqn:N.
    + exists c. split; [reflexivity|assumption].
    + eexists. split; [reflexivity|].
      constructor; [|assumption]. simpl.
      split; [|apply coerce_idem].
      unfold quoted. rewrite coerce_idem, N. reflexivity.
Qed.

Lemma quote_each_quoted (tuple : list value) (c : Cache) :
  cache_ok c ->
  exists c',
    quote_each tuple c = (of_result (quoted_each tuple), c') /\ cache_ok c'.
Proof.
  revert c; induction tuple as [|x rest IH]; intros c Hc; simpl.
  - exists c. split; [reflexivity|assumption].
  - unfold bind.
    destruct (quote_path_segment_quoted x PATH_SEGMENT_SAFE Hc)
      as (c1 & E1 & H1).
    rewrite E1.
    destruct (quoted x PATH_SEGMENT_SAFE) as [e|q]; simpl.
    + exists c1. split; [reflexivity|assumption].
    + destruct (IH c1 H1) as (c2 & E2 & H2). rewrite E2.
      destruct (quoted_each rest) as [e|qs]; simpl;
        exists c2; (split; [reflexivity|assumption]).
Qed.

Lemma _join_path_tuple_joined (tuple : list value) (c : Cache) :
  cache_ok c ->
  exists c',
    _join_path_tuple tuple c = (of_result (joined tuple), c') /\ cache_ok c'.
Proof.
  intros Hc. destruct tuple as [|x rest].
  - exists c. split; [reflexivity|assumption].
  - unfold _join_path_tuple, joined, bind.
    destruct (quote_each_quoted (x :: rest) Hc) as (c1 & E1 & H1).
    rewrite E1.
    destruct (quoted_each (x :: rest)) as [e|qs]; simpl.
    + exists c1. split; [reflexivity|assumption].
    + exists c1. unfold or_slash.
      destruct (str_eqb (join "/" qs) ""); (split; [reflexivity|assumption]).
Qed.

(** C10.  A segment that is neither [str] nor [bytes] (an [int], [None])
    is not refused: from any cache the module can have built,
    [quote_path_segment] returns the quoting of [str(segment)], which is
    what it returns for the text [str(segment)] itself. *)
Theorem quote_path_segment_coerces_non_text
  (segment : value) (safe : str) (c : Cache) :
  cache_ok c ->
  is_text_or_bytes segment = false ->
  exists c',
    quote_path_segment segment safe c
    = (Return (url_quote (str_ segment) safe), c')
    /\ cache_ok c'
    /\ fst (quote_path_segment (VStr (str_ segment)) safe c')
       = Return (url_quote (str_ segment) safe).
Proof.
  intros Hc Hclass.
  destruct (quote_path_segment_quoted segment safe Hc) as (c1 & E1 & H1).
  exists c1.
  assert (Q : quoted segment safe = inr (url_quote (str_ segment) safe)).
  { destruct segment; try discriminate; reflexivity. }
  rewrite Q in E1. split; [exact E1|]. split; [exact H1|].
  destruct (quote_path_segment_quoted (VStr (str_ segment)) safe H1)
    as (c2 & E2 & _).
  rewrite E2. reflexivity.
Qed.

End SegmentCache.

(* ================================================================== *)
(** ** The traversal loop *)

Lemma slice_from_app_cons {A} (pre : list A) (x : A) (rest : list A) :
  slice_from (pre ++ x :: rest) (Z.of_nat (List.length pre) + 1) = rest.
Proof.
  unfold slice_from.
  destruct (Z.ltb_spec (Z.of_nat (List.length pre) + 1) 0) as [H|H]; [lia|].
  replace (Z.to_nat (Z.of_nat (List.length pre) + 1))
    with (List.length (pre ++ [x])) by (rewrite length_app; simpl; lia).
  change (x :: rest) with ([x] ++ rest). rewrite app_assoc.
  rewrite skipn_app, skipn_all, Nat.sub_diag. reflexivity.
Qed.

Lemma last_cons {A} (x d : A) (l : list A) : last (x :: l) d = last l x.
Proof.
  revert x d; induction l as [|y l IH]; intros x d; [reflexivity|].
  change (last (x :: y :: l) d) with (last (y :: l) d).
  rewrite (IH y d), (IH y x). reflexivity.
Qed.

Section LoopFacts.
Context {I : Imports}.
Variables (t : Tree) (self_root : node) (subpath0 : list str).
Variables (vroot_tuple vpath_tuple : list str) (vroot_idx : Z).

Local Abbreviation loop := (traverse_loop t self_root subpath0 vroot_tuple vpath_tuple vroot_idx).

(** The loop runs through a prefix of segments that [descend] resolves and
    goes on from the last resource met. *)
Lemma traverse_loop_descend (pre rest : list str) (nodes : list node)
  (ob vroot : node) (i : Z) :
  descend t ob pre = Some nodes ->
  loop (pre ++ rest) ob vroot i
  = loop rest (last nodes ob) (vroot_after vroot_idx i vroot nodes)
      (i + Z.of_nat (List.length pre)).
Proof.
  revert nodes ob vroot i.
  induction pre as [|segment pre IH]; intros nodes ob vroot i; simpl.
  - intros [= <-]. simpl. rewrite Z.add_0_r. reflexivity.
  - destruct (str_eqb (slice_to segment 2) VIEW_SELECTOR); [discriminate|].
    destruct (__getitem__ (t ob)) as [getitem|]; [|discriminate].
    destruct (getitem segment) as [next|]; [|discriminate].
    destruct (descend t next pre) as [more|] eqn:D; [|discriminate].
    intros [= <-]. rewrite (IH more next _ _ D). simpl vroot_after.
    replace (i + 1 + Z.of_nat (List.length pre))%Z
      with (i + Z.pos (Pos.of_succ_nat (List.length pre)))%Z by lia.
    rewrite last_cons. reflexivity.
Qed.

Lemma vroot_after_passed (i vroot_idx' : Z) (vroot : node)
  (nodes : list node) :
  (vroot_idx' < i)%Z -> vroot_after vroot_idx' i vroot nodes = vroot.
Proof.
  revert i vroot; induction nodes as [|n nodes IH]; intros i vroot H; simpl;
    [reflexivity|].
  rewrite IH by lia.
  destruct (Z.eqb_spec i vroot_idx'); [lia|reflexivity].
Qed.


(** Once the index is past [vroot_idx] the loop no longer touches
    [vroot]. *)
Lemma virtual_root_passed (segments : list str) (ob vroot : node) (i : Z) :
  (vroot_idx < i)%Z ->
  virtual_root (loop segments ob vroot i) = vroot.
Proof.
  revert ob vroot i; induction segments as [|segment rest IH];
    intros ob vroot i H; simpl; [reflexivity|].
  destruct (str_eqb (slice_to segment 2) VIEW_SELECTOR); [reflexivity|].
  destruct (__getitem__ (t ob)) as [getitem|]; [|reflexivity].
  destruct (getitem segment) as [next|]; [|reflexivity].
  rewrite IH by lia.
  destruct (Z.eqb_spec i vroot_idx); [lia|reflexivity].
Qed.



End LoopFacts.

Lemma split_app_sep_mid (sep : N) (a b : str) :
  split sep (a ++ sep :: b) = split sep a ++ split sep b.
Proof.
  induction a as [|c a IH]; simpl.
  - rewrite N.eqb_refl. reflexivity.
  - destruct (N.eqb c sep); rewrite IH; [reflexivity|].
    destruct (split sep a) as [|w ws] eqn:E; [|reflexivity].
    exfalso. exact (split_not_nil _ _ E).
Qed.




Section TraverserFacts.
Context {I : Imports}.

(** The shortcut for [vpath == slash] is the loop on no segment. *)
Lemma ResourceTreeTraverser_call_loop (t : Tree) (self_root : node)
  (request : Request) (path : str) (subpath0 vroot_tuple : list str)
  (vpath : str) (vroot_idx : Z) :
  request_path request = inr (path, subpath0) ->
  request_vroot request path = inr (vroot_tuple, vpath, vroot_idx) ->
  ResourceTreeTraverser_call t self_root request
  = inr (traverse_loop t self_root subpath0 vroot_tuple
           (split_path_info vpath) vroot_idx (split_path_info vpath)
           self_root self_root 0).
Proof.
  intros P V. unfold ResourceTreeTraverser_call. rewrite P, V.
  destruct (str_eqb vpath slash) eqn:E; [|reflexivity].
  apply str_eqb_eq in E. subst vpath. reflexivity.
Qed.

(** C4.  A lookup that has no entry for the current segment ends the
    walk there: the context is the resource reached so far, the view name
    is that segment and the subpath is what follows it.  A root with a
    lookup and no entry ["x"] resolves ["/x/y"] to itself, with view name
    ["x"] and subpath [("y",)]. *)
Theorem missing_child_ends_walk :
  (forall (t : Tree) (self_root : node) (request : Request)
          (path : str) (subpath0 vroot_tuple : list str) (vpath : str)
          (vroot_idx : Z) (pre : list str) (segment : str)
          (rest : list str) (nodes : list node)
          (getitem : str -> option node),
      request_path request = inr (path, subpath0) ->
      request_vroot request path = inr (vroot_tuple, vpath, vroot_idx) ->
      split_path_info vpath = pre ++ segment :: rest ->
      descend t self_root pre = Some nodes ->
      slice_to segment 2 <> VIEW_SELECTOR ->
      __getitem__ (t (last nodes self_root)) = Some getitem ->
      getitem segment = None ->
      exists info,
        ResourceTreeTraverser_call t self_root request = inr info
        /\ context info = last nodes self_root
        /\ view_name info = segment
        /\ subpath info = rest)
  /\ fst (@traverse spec_imports 1 empty_registry bare_tree 0
            (PStr "/x/y") [])
     = Return (mkInfo 0 "x" T["y"] T[] 0 T[] 0).
Proof.
  split; [|reflexivity].
  intros t self_root request path subpath0 vroot_tuple vpath vroot_idx
    pre segment rest nodes getitem P V S D Hsel G K.
  rewrite (ResourceTreeTraverser_call_loop t self_root _ P V), S.
  erewrite traverse_loop_descend by exact D.
  simpl. apply str_eqb_neq in Hsel. rewrite Hsel, G, K.
  eexists. split; [reflexivity|]. simpl.
  repeat split. apply slice_from_app_cons.
Qed.

(** C5.  A segment that begins with [@@] ends the walk at once: the
    context is the resource reached so far, the view name is the segment
    without the marker and the subpath is what follows it.  With a child
    [a] of the root that has no lookup, ["/a/@@edit"] resolves to [a] with
    view name ["edit"]. *)
Theorem view_selector_ends_walk :
  (forall (t : Tree) (self_root : node) (request : Request)
          (path : str) (subpath0 vroot_tuple : list str) (vpath : str)
          (vroot_idx : Z) (pre : list str) (segment : str)
          (rest : list str) (nodes : list node),
      request_path request = inr (path, subpath0) ->
      request_vroot request path = inr (vroot_tuple, vpath, vroot_idx) ->
      split_path_info vpath = pre ++ segment :: rest ->
      descend t self_root pre = Some nodes ->
      slice_to segment 2 = VIEW_SELECTOR ->
      exists info,
        ResourceTreeTraverser_call t self_root request = inr info
        /\ context info = last nodes self_root
        /\ view_name info = slice_from segment 2
        /\ subpath info = rest)
  /\ (exists info,
        fst (@traverse spec_imports 1 empty_registry leaf_tree 0
               (PStr "/a/@@edit") []) = Return info
        /\ context info = 1 /\ view_name info = "edit").
Proof.
  split; [|eexists; split; [reflexivity|split; reflexivity]].
  intros t self_root request path subpath0 vroot_tuple vpath vroot_idx
    pre segment rest nodes P V S D Hsel.
  rewrite (ResourceTreeTraverser_call_loop t self_root _ P V), S.
  erewrite traverse_loop_descend by exact D.
  simpl. apply str_eqb_eq in Hsel. rewrite Hsel.
  eexists. split; [reflexivity|]. simpl.
  repeat split. apply slice_from_app_cons.
Qed.

End TraverserFacts.

Section VirtualRoot.
Context {I : Imports}.


Lemma request_vroot_no_header (request : Request) (path : str) :
  environ_get (environ request) VH_ROOT_KEY = None ->
  request_vroot request path = inr ([], path, (-1)%Z).
Proof. intros E. unfold request_vroot. rewrite E. reflexivity. Qed.



End VirtualRoot.

(* ================================================================== *)
(** ** Lineage *)

Lemma lineage_chain (t : Tree) (resource : node) (locations : list node) :
  chain t resource locations ->
  forall fuel, List.length locations <= fuel ->
  lineage fuel t resource = Some locations.
Proof.
  induction 1 as [r Hr|r p l Hp Hc IH]; intros [|fuel] Hf; simpl in *;
    try lia.
  - rewrite Hr. reflexivity.
  - rewrite Hp, IH by lia. reflexivity.
Qed.

Lemma chain_lineage (t : Tree) (fuel : nat) (resource : node)
  (locations : list node) :
  lineage fuel t resource = Some locations -> chain t resource locations.
Proof.
  revert resource locations; induction fuel as [|fuel IH];
    intros r l; simpl; [discriminate|].
  destruct (__parent__ (t r)) as [p|] eqn:Hp.
  - destruct (lineage fuel t p) as [rest|] eqn:L; [|discriminate].
    intros [= <-]. eapply chain_parent; [exact Hp|]. apply IH, L.
  - intros [= <-]. apply chain_root, Hp.
Qed.

Lemma chain_not_nil (t : Tree) (resource : node) (locations : list node) :
  chain t resource locations -> locations <> [].
Proof. destruct 1; discriminate. Qed.

Lemma find_root_loop_chain (t : Tree) (resource : node)
  (locations : list node) (d : node) :
  chain t resource locations ->
  find_root_loop t locations d = last locations d
  /\ __parent__ (t (last locations d)) = None.
Proof.
  induction 1 as [r Hr|r p l Hp Hc IH]; simpl.
  - rewrite Hr. split; reflexivity.
  - rewrite Hp. destruct l as [|x l]; [inversion Hc|]. exact IH.
Qed.

Section FindRoot.
Context {I : Imports}.

Lemma lineage_M_chain (t : Tree) (resource : node) (locations : list node)
  (fuel : nat) (c : Cache) :
  chain t resource locations -> List.length locations <= fuel ->
  lineage_M fuel t resource c = (Return locations, c).
Proof.
  intros H L. unfold lineage_M. rewrite (lineage_chain H L). reflexivity.
Qed.

Lemma find_root_chain (t : Tree) (resource : node) (locations : list node)
  (fuel : nat) (c : Cache) :
  chain t resource locations -> List.length locations <= fuel ->
  find_root fuel t resource c = (Return (last locations resource), c).
Proof.
  intros H L. unfold find_root, bind. rewrite (lineage_M_chain c H L).
  unfold ret. rewrite (proj1 (find_root_loop_chain resource H)).
  reflexivity.
Qed.

End FindRoot.

(* ================================================================== *)
(** ** [find_resource] and decoding failures *)

Section FindResource.
Context {I : Imports}.

Lemma ascii_native_same (s s' : str) : ascii_native_ s = inr s' -> s' = s.
Proof.
  unfold ascii_native_, encode_ascii.
  destruct (first_unencodable 128 0 s) as [[i j]|]; [discriminate|].
  congruence.
Qed.

(** [find_resource] is [traverse] followed by the test of [view_name]. *)
Lemma find_resource_traverse (fuel : nat) (reg : Registry) (t : Tree)
  (resource : node) (path : path_arg) (c : Cache) :
  find_resource fuel reg t resource path c
  = match traverse fuel reg t resource path c with
    | (Return D, c') =>
        if str_eqb (view_name D) "" then (Return (context D), c')
        else (Raise (KeyError (NoSubelement (context D) (view_name D))), c')
    | (Raise e, c') => (Raise e, c')
    | (Diverge, c') => (Diverge, c')
    end.
Proof.
  assert (K : forall p,
             bind (traverse fuel reg t resource p)
               (fun D =>
                  if negb (str_eqb (view_name D) "") then
                    raise (KeyError (NoSubelement (context D) (view_name D)))
                  else ret (context D)) c
             = match traverse fuel reg t resource p c with
               | (Return D, c') =>
                   if str_eqb (view_name D) "" then (Return (context D), c')
                   else (Raise (KeyError
                                  (NoSubelement (context D) (view_name D))),
                         c')
               | (Raise e, c') => (Raise e, c')
               | (Diverge, c') => (Diverge, c')
               end).
  { intros p. unfold bind.
    destruct (traverse fuel reg t resource p c) as [[D|e|] c'];
      try reflexivity.
    destruct (str_eqb (view_name D) ""); reflexivity. }
  destruct path as [s|tuple].
  - unfold find_resource. unfold bind at 1 2.
    assert (T : traverse fuel reg t resource (PStr s) c
                = match ascii_native_ s with
                  | inl e => (Raise e, c)
                  | inr s' => traverse fuel reg t resource (PStr s') c
                  end).
    { destruct (ascii_native_ s) as [e|s'] eqn:A.
      - unfold traverse, bind at 1 2. unfold ret at 1, lift at 1.
        rewrite A. reflexivity.
      - apply ascii_native_same in A. subst s'. reflexivity. }
    rewrite T. unfold lift.
    destruct (ascii_native_ s) as [e|s'] eqn:A; [reflexivity|].
    simpl of_result. cbv iota beta. unfold ret at 1. apply K.
  - apply K.
Qed.

(** C7.  [find_resource] raises its [KeyError] exactly when the
    traversal of the path leaves a view name; with an empty view name it
    returns the context; what the traversal raises passes unchanged, so
    the [KeyError] is the one error the function adds. *)
Theorem find_resource_raises_iff_view_name
  (fuel : nat) (reg : Registry) (t : Tree) (resource : node)
  (path : path_arg) (c : Cache) :
  (forall D c',
      traverse fuel reg t resource path c = (Return D, c') ->
      (view_name D <> "" ->
       find_resource fuel reg t resource path c
       = (Raise (KeyError (NoSubelement (context D) (view_name D))), c'))
      /\ (view_name D = "" ->
          find_resource fuel reg t resource path c = (Return (context D), c'))
      /\ ((exists e, fst (find_resource fuel reg t resource path c) = Raise e)
          <-> view_name D <> ""))
  /\ (forall e c',
        traverse fuel reg t resource path c = (Raise e, c') ->
        find_resource fuel reg t resource path c = (Raise e, c'))
  /\ (forall c',
        traverse fuel reg t resource path c = (Diverge, c') ->
        find_resource fuel reg t resource path c = (Diverge, c')).
Proof.
  rewrite find_resource_traverse.
  split; [|split].
  - intros D c' ->.
    destruct (str_eqb (view_name D) "") eqn:E.
    + apply str_eqb_eq in E.
      split; [intros N; contradiction|].
      split; [reflexivity|].
      split; [intros [e H]; discriminate|intros N; contradiction].
    + apply str_eqb_neq in E.
      split; [reflexivity|].
      split; [intros N; contradiction|].
      split; [intros _; exact E|intros _; eexists; reflexivity].
  - intros e c' ->. reflexivity.
  - intros c' ->. reflexivity.
Qed.

Lemma unicode_error_eta (e : UnicodeError) :
  mkUnicodeError (encoding e) (object_ e) (start e) (end_ e) (reason e) = e.
Proof. destruct e; reflexivity. Qed.

(** C6.  When the bytes of a path are not valid UTF-8, splitting raises
    [URLDecodeError] with the encoding, the object, the start and end
    positions and the reason of the decoding error; the traverser raises
    the same error and returns no dictionary, and so does [traverse]. *)
Theorem decode_failure_aborts :
  (forall (path : str) (b : bytes) (e : UnicodeError),
      encode_latin1 path = inr b ->
      utf8_decode b = inl e ->
      traversal_path_info path
      = inl (URLDecodeError
               (mkUnicodeError (encoding e) (object_ e) (start e) (end_ e)
                  (reason e))))
  /\ (forall (path : str) (b b' : bytes) (e : UnicodeError),
        encode_ascii path = inr b ->
        encode_latin1 (unquote_bytes_to_wsgi b) = inr b' ->
        utf8_decode b' = inl e ->
        traversal_path (inl path)
        = inl (URLDecodeError
                 (mkUnicodeError (encoding e) (object_ e) (start e) (end_ e)
                    (reason e))))
  /\ (forall (t : Tree) (self_root : node) (request : Request)
             (e : UnicodeError),
        matchdict request = None ->
        path_info request = inl (UnicodeDecodeError e) ->
        ResourceTreeTraverser_call t self_root request
        = inl (URLDecodeError
                 (mkUnicodeError (encoding e) (object_ e) (start e) (end_ e)
                    (reason e))))
  /\ (forall (fuel : nat) (reg : Registry) (t : Tree) (resource : node)
             (locations : list node) (path : str) (e : UnicodeError)
             (c : Cache),
        chain t resource locations ->
        List.length locations <= fuel ->
        ascii_native_ path = inr path ->
        queryUtility_IRequestFactory reg = None ->
        (forall r, queryAdapter_ITraverser reg r = None) ->
        matchdict (Request_blank path) = None ->
        path_info (Request_blank path) = inl (UnicodeDecodeError e) ->
        traverse fuel reg t resource (PStr path) c
        = (Raise (URLDecodeError e), c)
        /\ find_resource fuel reg t resource (PStr path) c
           = (Raise (URLDecodeError e), c)).
Proof.
  split; [|split; [|split]].
  - intros path b e L D. unfold traversal_path_info, decode_path_info.
    rewrite L, D. reflexivity.
  - intros path b b' e A L D.
    unfold traversal_path, traversal_path_info, decode_path_info.
    rewrite A, L, D. reflexivity.
  - intros t self_root request e M P.
    unfold ResourceTreeTraverser_call, request_path. rewrite M, P.
    reflexivity.
  - intros fuel reg t resource locations path e c Hc Hf A U Q M P.
    assert (T : traverse fuel reg t resource (PStr path) c
                = (Raise (URLDecodeError e), c)).
    { assert (R : forall r,
                 (let request_factory :=
                    match queryUtility_IRequestFactory reg with
                    | None => Request_blank
                    | Some factory => factory
                    end in
                  let request := request_factory path in
                  let traverser :=
                    match queryAdapter_ITraverser reg r with
                    | None => ResourceTreeTraverser_call t r
                    | Some adapter => adapter
                    end in
                  lift (traverser request)) c
                 = (Raise (URLDecodeError e), c)).
      { intros r. cbv zeta. rewrite U, Q.
        unfold lift, ResourceTreeTraverser_call, request_path.
        rewrite M, P, unicode_error_eta. reflexivity. }
      unfold traverse, bind at 1 2. unfold ret at 1, lift at 1.
      rewrite A. simpl of_result. cbv iota beta.
      destruct (startswith path "/").
      - unfold bind. rewrite (find_root_chain c Hc Hf). apply R.
      - unfold bind, ret. apply R. }
    split; [exact T|].
    rewrite find_resource_traverse, T. reflexivity.
Qed.

End FindResource.

(* ================================================================== *)
(** ** Joining path tuples *)

Lemma join_cons (sep x : str) (items : list str) :
  items <> [] -> join sep (x :: items) = x ++ sep ++ join sep items.
Proof. destruct items; [contradiction|reflexivity]. Qed.

Lemma join_snoc (sep x : str) (items : list str) :
  items <> [] -> join sep (items ++ [x]) = join sep items ++ sep ++ x.
Proof.
  induction items as [|y items IH]; [contradiction|]. intros _.
  destruct items as [|z items]; [reflexivity|].
  change ((y :: z :: items) ++ [x]) with (y :: (z :: items) ++ [x]).
  rewrite join_cons by (destruct items; discriminate).
  rewrite IH by discriminate.
  rewrite (@join_cons sep y (z :: items)) by discriminate.
  rewrite <- !app_assoc. reflexivity.
Qed.

Lemma tuple_eqb_eq (a b : list value) : tuple_eqb a b = true <-> a = b.
Proof.
  revert b; induction a as [|x a IH]; intros [|y b]; simpl; split;
    try congruence; try reflexivity.
  - intros H. apply andb_prop in H as [Hx Hab].
    apply value_eqb_eq in Hx. apply IH in Hab. congruence.
  - intros [= -> ->]. apply andb_true_intro. split.
    + apply value_eqb_eq. reflexivity.
    + apply IH. reflexivity.
Qed.

Section Joining.
Context {I : Imports}.

Lemma quoted_each_app (a b : list value) (qa qb : list str) :
  quoted_each a = inr qa -> quoted_each b = inr qb ->
  quoted_each (a ++ b) = inr (qa ++ qb).
Proof.
  revert qa; induction a as [|x a IH]; intros qa; simpl.
  - intros [= <-]. auto.
  - destruct (quoted x PATH_SEGMENT_SAFE) as [e|q]; [discriminate|].
    destruct (quoted_each a) as [e|qs]; [discriminate|].
    intros [= <-] B. rewrite (IH qs eq_refl B). reflexivity.
Qed.

Lemma quoted_each_length (tuple : list value) (qs : list str) :
  quoted_each tuple = inr qs -> List.length qs = List.length tuple.
Proof.
  revert qs; induction tuple as [|x a IH]; intros qs; simpl.
  - intros [= <-]. reflexivity.
  - destruct (quoted x PATH_SEGMENT_SAFE) as [e|q]; [discriminate|].
    destruct (quoted_each a) as [e|qs']; [discriminate|].
    intros [= <-]. simpl. f_equal. apply IH. reflexivity.
Qed.

Lemma quoted_text (s safe : str) :
  quoted (VStr s) safe = inr (url_quote s safe).
Proof. reflexivity. Qed.

Lemma quoted_each_cons_text (s : str) (rest : list value) (qs : list str) :
  quoted_each rest = inr qs ->
  quoted_each (VStr s :: rest) = inr (url_quote s PATH_SEGMENT_SAFE :: qs).
Proof.
  intros Q. change (quoted_each (VStr s :: rest))
    with (match quoted (VStr s) PATH_SEGMENT_SAFE with
          | inl e => inl e
          | inr q => match quoted_each rest with
                     | inl e => inl e
                     | inr qs => inr (q :: qs)
                     end
          end).
  rewrite quoted_text, Q. reflexivity.
Qed.

Lemma quoted_each_text (segments : list str) :
  quoted_each (map VStr segments)
  = inr (map (fun s => url_quote s PATH_SEGMENT_SAFE) segments).
Proof.
  induction segments as [|s segments IH]; simpl; [reflexivity|].
  rewrite IH. reflexivity.
Qed.

(** C2, as the code has it.  The empty tuple joins to ["/"].  A
    non-empty tuple joins to its quoted elements separated by slashes,
    with no slash put in front, and to ["/"] when that string is empty.
    The leading slash comes from the empty first element of an absolute
    tuple: such a tuple joins to ["/"] followed by its other elements,
    quoted and separated by slashes. *)
Theorem _join_path_tuple_formula (tuple : list value) (c : Cache) :
  cache_ok c ->
  _join_path_tuple [] c = (Return (u "/"), c)
  /\ (forall qs,
        tuple <> [] ->
        quoted_each tuple = inr qs ->
        exists c',
          _join_path_tuple tuple c = (Return (or_slash (join "/" qs)), c')
          /\ cache_ok c')
  /\ (forall rest qs,
        tuple = VStr "" :: rest ->
        url_quote "" PATH_SEGMENT_SAFE = "" ->
        quoted_each rest = inr qs ->
        exists c',
          _join_path_tuple tuple c = (Return ("/" ++ join "/" qs), c')
          /\ cache_ok c').
Proof.
  intros Hc. split; [reflexivity|].
  destruct (_join_path_tuple_joined tuple Hc) as (c' & E & Hc').
  split.
  - intros qs Hne Q. exists c'. split; [|exact Hc'].
    rewrite E. unfold joined. rewrite Q.
    destruct tuple; [contradiction|reflexivity].
  - intros rest qs -> Hempty Q. exists c'. split; [|exact Hc'].
    rewrite E. unfold joined.
    rewrite (quoted_each_cons_text "" rest Q), Hempty. simpl of_result.
    destruct qs as [|q qs]; reflexivity.
Qed.

End Joining.

(* ================================================================== *)
(** ** The path of a resource *)

Lemma or_slash_nonempty (s : str) : s <> [] -> or_slash s = s.
Proof.
  intros H. unfold or_slash.
  destruct (str_eqb s "") eqn:E; [|reflexivity].
  apply str_eqb_eq in E. contradiction.
Qed.

Lemma join_two_nonempty (x y : str) (items : list str) :
  join "/" (x :: y :: items) <> [].
Proof.
  rewrite join_cons by discriminate. intros H.
  apply app_eq_nil in H as [_ H]. discriminate.
Qed.

Section ResourcePath.
Context {I : Imports}.

Lemma resource_path_tuple_chain (t : Tree) (resource : node)
  (locations : list node) (elements : list value) (fuel : nat) (c : Cache) :
  chain t resource locations -> List.length locations <= fuel ->
  resource_path_tuple fuel t resource elements c
  = (Return (rev (map (name_or_empty t) locations) ++ elements), c).
Proof.
  intros H L. unfold resource_path_tuple, _resource_path_list, bind.
  rewrite (lineage_M_chain c H L). reflexivity.
Qed.

(** [physical_path] and [physical_path_tuple] do not depend on the
    request. *)
Lemma ResourceURL_init_physical (fuel : nat) (t : Tree) (resource : node)
  (request : Request) (c c1 : Cache) (tuple : list value) (path : str) :
  resource_path_tuple fuel t resource [] c = (Return tuple, c) ->
  _join_path_tuple tuple c = (Return path, c1) ->
  exists R,
    ResourceURL_init fuel t resource request c = (Return R, c1)
    /\ physical_path R
       = (if negb (tuple_eqb tuple [VStr ""]) then path ++ "/" else path)
    /\ physical_path_tuple R
       = (if negb (tuple_eqb tuple [VStr ""]) then tuple ++ [VStr ""]
          else tuple).
Proof.
  intros T J. unfold ResourceURL_init. unfold bind at 1. rewrite T.
  unfold bind at 1. rewrite J.
  destruct (negb (tuple_eqb tuple [VStr ""]));
    (destruct (environ_get (environ request) VH_ROOT_KEY) as [v|];
     [match goal with
      | |- context [if ?b then _ else _] => destruct b
      end|]);
    eexists; (split; [reflexivity|split; reflexivity]).
Qed.

(** C9.  [ResourceURL] computes [physical_path] as the join of the path
    tuple of the resource with an empty segment appended, so that it ends
    in a slash, unless the resource is the root, for which it is the bare
    ["/"].  The root carries no name, as [resource_path] asks, and the
    quoting of the empty text is empty. *)
Theorem physical_path_of_resource (fuel : nat) (t : Tree) (resource : node)
  (request : Request) (c : Cache) (locations : list node) (qs : list str) :
  chain t resource locations ->
  List.length locations <= fuel ->
  cache_ok c ->
  quoted_each (rev (map (name_or_empty t) locations)) = inr qs ->
  url_quote "" PATH_SEGMENT_SAFE = "" ->
  (__parent__ (t resource) = None ->
   truthy (__name__ (t resource)) = false) ->
  exists R c',
    ResourceURL_init fuel t resource request c = (Return R, c')
    /\ cache_ok c'
    /\ (__parent__ (t resource) = None -> physical_path R = "/")
    /\ (__parent__ (t resource) <> None ->
        physical_path R = join "/" qs ++ "/"
        /\ fst (_join_path_tuple
                  (rev (map (name_or_empty t) locations) ++ [VStr ""]) c')
           = Return (physical_path R)).
Proof.
  intros Hchain Hfuel Hc Q Hempty Hroot.
  pose proof (resource_path_tuple_chain [] c Hchain Hfuel) as T.
  rewrite app_nil_r in T.
  set (tuple := rev (map (name_or_empty t) locations)) in *.
  destruct (_join_path_tuple_joined tuple Hc) as (c1 & E & Hc1).
  assert (Hne : tuple <> []).
  { subst tuple. intros H. apply (f_equal (@List.length value)) in H.
    rewrite length_rev, length_map in H.
    pose proof (chain_not_nil Hchain). destruct locations; simpl in *;
      [contradiction|discriminate]. }
  assert (J : joined tuple = inr (or_slash (join "/" qs))).
  { unfold joined. rewrite Q. destruct tuple; [contradiction|reflexivity]. }
  rewrite J in E. simpl of_result in E.
  destruct (@ResourceURL_init_physical fuel t resource request c c1 tuple _ T E)
    as (R & ER & PP & _).
  exists R, c1. split; [exact ER|]. split; [exact Hc1|].
  inversion Hchain as [r Hp Er El|r p l Hp Hl Er El]; subst r.
  - (* the root *)
    split; [|intros N; contradiction]. intros _.
    subst locations. subst tuple. simpl in Q, PP.
    unfold name_or_empty in Q, PP. rewrite (Hroot Hp) in Q, PP.
    simpl in Q, PP. unfold quoted in Q. simpl in Q. rewrite Hempty in Q.
    injection Q as <-. exact PP.
  - (* below the root *)
    split; [intros N; congruence|]. intros _.
    assert (Hlen : 2 <= List.length tuple).
    { subst tuple locations. rewrite length_rev, length_map. simpl.
      pose proof (chain_not_nil Hl). destruct l; [contradiction|simpl; lia]. }
    assert (Hq : 2 <= List.length qs).
    { rewrite (quoted_each_length _ Q). exact Hlen. }
    assert (B : tuple_eqb tuple [VStr ""] = false).
    { destruct (tuple_eqb tuple [VStr ""]) eqn:B; [|reflexivity].
      apply tuple_eqb_eq in B. rewrite B in Hlen. simpl in Hlen. lia. }
    rewrite B in PP. simpl in PP.
    assert (Jq : or_slash (join "/" qs) = join "/" qs).
    { apply or_slash_nonempty.
      destruct qs as [|x [|y qs]]; simpl in Hq; try lia.
      apply join_two_nonempty. }
    rewrite Jq in PP. split; [exact PP|].
    destruct (_join_path_tuple_joined (tuple ++ [VStr ""]) Hc1)
      as (c2 & E2 & _).
    rewrite E2. simpl fst. unfold joined.
    assert (Q2 : quoted_each (tuple ++ [VStr ""]) = inr (qs ++ [u ""])).
    { apply quoted_each_app; [exact Q|].
      simpl. unfold quoted. simpl. rewrite Hempty. reflexivity. }
    rewrite Q2.
    destruct (tuple ++ [VStr ""]) eqn:Z;
      [apply app_eq_nil in Z as [_ Z]; discriminate|].
    simpl of_result. f_equal. rewrite PP.
    rewrite join_snoc by (destruct qs; [simpl in Hq; lia|discriminate]).
    rewrite app_nil_r.
    apply or_slash_nonempty. intros H.
    apply app_eq_nil in H as [_ H]. discriminate.
Qed.

End ResourcePath.

(* ================================================================== *)
(** ** From a resource to its path and back *)

Lemma split_no_sep (sep : N) (s : str) :
  char_in sep s = false -> split sep s = [s].
Proof.
  induction s as [|c s IH]; simpl; [reflexivity|].
  unfold char_in in *. simpl.
  rewrite (N.eqb_sym sep c).
  destruct (N.eqb c sep); simpl; [discriminate|].
  intros H. rewrite (IH H). reflexivity.
Qed.

Lemma split_join (segs : list str) :
  segs <> [] ->
  Forall (fun s => char_in 47 s = false) segs ->
  split 47 (join "/" segs) = segs.
Proof.
  intros Hne H. induction H as [|s segs Hs Hsegs IH]; [contradiction|].
  destruct segs as [|s' segs].
  - simpl. apply split_no_sep, Hs.
  - rewrite join_cons by discriminate.
    change (u "/" ++ join "/" (s' :: segs))
      with (47%N :: join "/" (s' :: segs)).
    rewrite split_app_sep_mid, IH by discriminate.
    rewrite (split_no_sep _ _ Hs). reflexivity.
Qed.

Lemma fold_clean_step_clean_segments (segs acc : list str) :
  Forall (fun s => clean_segment s = true) segs ->
  fold_left clean_step segs acc = acc ++ segs.
Proof.
  intros H; revert acc; induction H as [|s segs Hs Hsegs IH]; intros acc;
    simpl.
  - rewrite app_nil_r. reflexivity.
  - rewrite IH. unfold clean_segment in Hs.
    apply andb_prop in Hs as [Hs H3]. apply andb_prop in Hs as [H1 H2].
    rewrite negb_true_iff in H1, H2, H3.
    unfold clean_step. rewrite H1, H2, H3. simpl.
    rewrite <- app_assoc. reflexivity.
Qed.

Lemma plain_segment_parts (s : str) :
  plain_segment s = true ->
  clean_segment s = true /\ char_in 47 s = false
  /\ str_eqb (slice_to s 2) VIEW_SELECTOR = false.
Proof.
  unfold plain_segment. intros H.
  apply andb_prop in H as [H H3]. apply andb_prop in H as [H1 H2].
  rewrite negb_true_iff in H2, H3. auto.
Qed.

(** Splitting the slash-separated plain segments gives them back. *)
Lemma split_path_info_join (segs : list str) :
  Forall (fun s => plain_segment s = true) segs ->
  split_path_info ("/" ++ join "/" segs) = segs.
Proof.
  intros H. rewrite split_path_info_unstripped.
  change (u "/" ++ join "/" segs) with (47%N :: join "/" segs).
  rewrite split_sep_cons. simpl.
  change (clean_step [] []) with (@nil str).
  destruct segs as [|s segs]; [reflexivity|].
  rewrite split_join.
  - apply fold_clean_step_clean_segments.
    eapply Forall_impl; [|exact H]. intros a Ha.
    apply (plain_segment_parts _ Ha).
  - discriminate.
  - eapply Forall_impl; [|exact H]. intros a Ha.
    apply (plain_segment_parts _ Ha).
Qed.

Lemma descend_app (t : Tree) (ob : node) (a b : list str)
  (na nb : list node) :
  descend t ob a = Some na ->
  descend t (last na ob) b = Some nb ->
  descend t ob (a ++ b) = Some (na ++ nb).
Proof.
  revert ob na; induction a as [|segment a IH]; intros ob na; simpl.
  - intros [= <-]. simpl. auto.
  - destruct (str_eqb (slice_to segment 2) VIEW_SELECTOR); [discriminate|].
    destruct (__getitem__ (t ob)) as [getitem|]; [|discriminate].
    destruct (getitem segment) as [next|]; [|discriminate].
    destruct (descend t next a) as [more|] eqn:D; [|discriminate].
    intros [= <-] B. rewrite last_cons in B.
    rewrite (IH _ _ D B). reflexivity.
Qed.

Lemma last_nonempty {A} (l : list A) (d d' : A) :
  l <> [] -> last l d = last l d'.
Proof.
  induction l as [|x l IH]; [contradiction|]. intros _.
  destruct l as [|y l]; [reflexivity|].
  change (last (y :: l) d = last (y :: l) d'). apply IH. discriminate.
Qed.

Lemma chain_last_root (t : Tree) (resource : node) (locations : list node) :
  chain t resource locations ->
  chain t (last locations resource) [last locations resource].
Proof.
  intros H. apply chain_root.
  apply (find_root_loop_chain resource H).
Qed.

(** In a tree where every resource is its parent's child of that name,
    the names along the chain lead from the root down to the resource. *)
Lemma descend_chain (t : Tree) (resource : node) (locations : list node) :
  chain t resource locations ->
  Forall (child_of_parent t) locations ->
  forall segs,
    rev (map (name_or_empty t) locations) = VStr "" :: map VStr segs ->
    Forall (fun s => plain_segment s = true) segs ->
    exists nodes,
      descend t (last locations resource) segs = Some nodes
      /\ last nodes (last locations resource) = resource.
Proof.
  induction 1 as [r Hr|r p l Hp Hc IH]; intros Htree segs Hnames Hplain.
  - simpl in Hnames. injection Hnames as _ Hsegs.
    destruct segs; [|discriminate]. exists []. split; reflexivity.
  - apply Forall_cons_iff in Htree as [Hchild Htree].
    simpl in Hnames.
    assert (Hl : l <> []) by (apply (chain_not_nil Hc)).
    destruct (exists_last (l := segs)) as (segs' & s & ->).
    { intros ->. apply (f_equal (@List.length value)) in Hnames.
      rewrite length_app, length_rev, length_map in Hnames.
      destruct l; [contradiction|simpl in Hnames; lia]. }
    rewrite map_app in Hnames. simpl in Hnames.
    change (VStr "" :: map VStr segs' ++ [VStr s])
      with ((VStr "" :: map VStr segs') ++ [VStr s]) in Hnames.
    apply app_inj_tail in Hnames as [Hnames Hname].
    apply Forall_app in Hplain as [Hplain Hs].
    apply Forall_inv in Hs.
    destruct (IH Htree segs' Hnames Hplain) as (nodes & D & L).
    rewrite last_cons, (last_nonempty r p Hl).
    exists (nodes ++ [r]). split; [|apply last_last].
    apply descend_app with (1 := D). rewrite L.
    unfold child_of_parent in Hchild. rewrite Hp in Hchild.
    destruct Hchild as (getitem & s0 & G & Nm & K).
    unfold name_or_empty in Hname. rewrite Nm in Hname.
    destruct (plain_segment_parts _ Hs) as (Hclean & _ & Hsel).
    assert (s0 = s).
    { destruct (truthy (VStr s0)); [congruence|].
      injection Hname as <-. discriminate. }
    subst s0. simpl. rewrite Hsel, G, K. reflexivity.
Qed.

Section RoundTrip.
Context {I : Imports}.

(** C1, as the code has it.  Take a resource whose chain of ancestors
    ends at a root without name, where every other ancestor is the child
    its parent's lookup answers for its name, and the names are text that
    is clean, holds no slash and does not begin with [@@]; let the
    default request factory read the quoted path back as the names
    separated by slashes.  Then [resource_path] returns a path string
    from which [traverse], started at the root, returns the resource as
    context with an empty view name. *)
Theorem resource_path_round_trip (fuel : nat) (reg : Registry) (t : Tree)
  (resource : node) (locations : list node) (segs : list str) (c : Cache) :
  chain t resource locations ->
  List.length locations <= fuel ->
  Forall (child_of_parent t) locations ->
  rev (map (name_or_empty t) locations) = VStr "" :: map VStr segs ->
  Forall (fun s => plain_segment s = true) segs ->
  decodes_to
    (or_slash
       (join "/" (map (fun s => url_quote s PATH_SEGMENT_SAFE) (u "" :: segs))))
    ("/" ++ join "/" segs) ->
  queryUtility_IRequestFactory reg = None ->
  queryAdapter_ITraverser reg (last locations resource) = None ->
  cache_ok c ->
  exists path c1 info c2,
    resource_path fuel t resource [] c = (Return path, c1)
    /\ traverse fuel reg t (last locations resource) (PStr path) c1
       = (Return info, c2)
    /\ context info = resource
    /\ view_name info = "".
Proof.
  intros Hchain Hfuel Htree Hnames Hplain (Hascii & Hmd & Hvh & Hpi) Hrf Hta
    Hc.
  set (self_root := last locations resource) in *.
  set (path := or_slash
                 (join "/" (map (fun s => url_quote s PATH_SEGMENT_SAFE)
                              (u "" :: segs)))) in *.
  (* the path string *)
  assert (P : exists c1,
             resource_path fuel t resource [] c = (Return path, c1)
             /\ cache_ok c1).
  { unfold resource_path, bind.
    rewrite (resource_path_tuple_chain [] c Hchain Hfuel), app_nil_r, Hnames.
    destruct (_join_path_tuple_joined (VStr "" :: map VStr segs) Hc)
      as (c1 & E & Hc1).
    exists c1. split; [|exact Hc1]. rewrite E. unfold joined.
    change (VStr "" :: map VStr segs) with (map VStr (u "" :: segs)).
    rewrite quoted_each_text. reflexivity. }
  destruct P as (c1 & P & Hc1).
  (* the walk *)
  destruct (descend_chain Hchain Htree (segs:=segs) Hnames Hplain)
    as (nodes & D & L).
  fold self_root in D, L.
  set (request := Request_blank path) in *.
  assert (RP : request_path request = inr ("/" ++ join "/" segs, [])).
  { unfold request_path. rewrite Hmd, Hpi. reflexivity. }
  assert (RV : request_vroot request ("/" ++ join "/" segs)
               = inr ([], "/" ++ join "/" segs, (-1)%Z)).
  { apply request_vroot_no_header, Hvh. }
  pose proof (ResourceTreeTraverser_call_loop t self_root _ RP RV) as W.
  rewrite (split_path_info_join Hplain) in W.
  rewrite <- (app_nil_r segs) in W at 2.
  erewrite traverse_loop_descend in W by exact D.
  simpl in W. rewrite L, vroot_after_passed in W by lia.
  (* the traversal *)
  exists path, c1,
    (mkInfo resource "" [] segs self_root [] self_root), c1.
  split; [exact P|].
  split; [|split; reflexivity].
  unfold traverse, bind at 1 2. unfold ret at 1, lift at 1.
  rewrite Hascii. simpl of_result. cbv iota beta.
  assert (R : find_root fuel t self_root c1 = (Return self_root, c1)).
  { pose proof (chain_last_root Hchain) as Hr. fold self_root in Hr.
    rewrite (find_root_chain c1 Hr); [reflexivity|].
    simpl. pose proof (chain_not_nil Hchain).
    destruct locations; [contradiction|simpl in Hfuel; lia]. }
  assert (S : forall m : M node,
             m c1 = (Return self_root, c1) ->
             bind m
               (fun resource0 =>
                  let request_factory :=
                    match queryUtility_IRequestFactory reg with
                    | None => Request_blank
                    | Some factory => factory
                    end in
                  let request := request_factory path in
                  let traverser :=
                    match queryAdapter_ITraverser reg resource0 with
                    | None => ResourceTreeTraverser_call t resource0
                    | Some adapter => adapter
                    end in
                  lift (traverser request)) c1
             = (Return (mkInfo resource "" [] segs self_root [] self_root),
                c1)).
  { intros m Hm. unfold bind. rewrite Hm. cbv zeta.
    rewrite Hrf, Hta. unfold lift. fold request. rewrite W. reflexivity. }
  destruct (startswith path "/"); apply S; [exact R|reflexivity].
Qed.

End RoundTrip.

(** C1, as worded, fails on a name that begins with the view selector.
    In [selector_tree] the child of the root is named [@@edit]: the name
    is clean and the lookup of the root answers it, its path is
    ["/@@edit"], and the traversal of that path from the root stops at the
    root with view name ["edit"]. *)
Lemma round_trip_fails_on_selector_name :
  chain selector_tree 1 [1; 0]
  /\ __name__ (selector_tree 1) = VStr "@@edit"
  /\ clean_segment "@@edit" = true
  /\ truthy (__name__ (selector_tree 0)) = false
  /\ child_of_parent selector_tree 1
  /\ fst (resource_path 2 selector_tree 1 [] []) = Return (u "/@@edit")
  /\ fst (traverse 2 empty_registry selector_tree 0 (PStr "/@@edit") [])
     = Return (mkInfo 0 "edit" T[] T[] 0 T[] 0)
  /\ context (mkInfo 0 "edit" T[] T[] 0 T[] 0) <> 1
  /\ view_name (mkInfo 0 "edit" T[] T[] 0 T[] 0) <> "".
Proof.
  split.
  { apply chain_parent with (parent := 0); [reflexivity|].
    apply chain_root. reflexivity. }
  repeat split; try reflexivity; try discriminate.
  exists (entry "@@edit" 1), (u "@@edit"). repeat split.
Qed.

(** The other conditions of the round trip.  A name that holds a slash
    is quoted as [%2F] and read back as two segments; a resource that the
    lookup of its parent does not answer is not found. *)
Lemma round_trip_needs_slash_free_names :
  fst (resource_path 2 slash_tree 1 [] []) = Return (u "/a%2Fb")
  /\ fst (traverse 2 empty_registry slash_tree 0 (PStr "/a%2Fb") [])
     = Return (mkInfo 0 "a" T["b"] T[] 0 T[] 0).
Proof. split; reflexivity. Qed.

Lemma round_trip_needs_lookup :
  fst (resource_path 2 orphan_tree 1 [] []) = Return (u "/a")
  /\ fst (traverse 2 empty_registry orphan_tree 0 (PStr "/a") [])
     = Return (mkInfo 0 "a" T[] T[] 0 T[] 0).
Proof. split; reflexivity. Qed.

(* ================================================================== *)
(** ** The codec of the specification reads back what it quotes *)

Module CodecFacts.
Import Codec.
Open Scope N_scope.

#[local] Ltac Zify.zify_post_hook ::= Z.to_euclidean_division_equations.

Ltac decide_tests :=
  repeat match goal with
    | |- context [N.ltb ?a ?b] =>
        first [ replace (N.ltb a b) with true
                  by (symmetry; apply N.ltb_lt; lia)
              | replace (N.ltb a b) with false
                  by (symmetry; apply N.ltb_ge; lia) ]
    | |- context [N.leb ?a ?b] =>
        first [ replace (N.leb a b) with true
                  by (symmetry; apply N.leb_le; lia)
              | replace (N.leb a b) with false
                  by (symmetry; apply N.leb_gt; lia) ]
    | |- context [N.eqb ?a ?b] =>
        first [ replace (N.eqb a b) with true
                  by (symmetry; apply N.eqb_eq; lia)
              | replace (N.eqb a b) with false
                  by (symmetry; apply N.eqb_neq; lia) ]
    end.

Section Decoding.
Variable object : bytes.

Lemma utf8_decode_at_1 (pos b0 : N) (rest : bytes) :
  b0 < 128 ->
  utf8_decode_at object pos (b0 :: rest)
  = push b0 (utf8_decode_at object (pos + 1) rest).
Proof. intros H. cbn [utf8_decode_at]. decide_tests. reflexivity. Qed.

Lemma utf8_decode_at_2 (pos b0 b1 : N) (rest : bytes) :
  194 <= b0 < 224 -> 128 <= b1 < 192 ->
  utf8_decode_at object pos (b0 :: b1 :: rest)
  = push ((b0 - 192) * 64 + (b1 - 128))
      (utf8_decode_at object (pos + 2) rest).
Proof.
  intros H0 H1. cbn [utf8_decode_at]. unfold is_continuation.
  decide_tests. reflexivity.
Qed.

Lemma utf8_decode_at_3 (pos b0 b1 b2 : N) (rest : bytes) :
  224 <= b0 < 240 -> 128 <= b1 < 192 -> 128 <= b2 < 192 ->
  (b0 = 224 -> 160 <= b1) -> (b0 = 237 -> b1 <= 159) ->
  utf8_decode_at object pos (b0 :: b1 :: b2 :: rest)
  = push ((b0 - 224) * 4096 + (b1 - 128) * 64 + (b2 - 128))
      (utf8_decode_at object (pos + 3) rest).
Proof.
  intros H0 H1 H2 L U. cbn [utf8_decode_at].
  unfold is_continuation, in_range.
  destruct (N.eqb_spec b0 224) as [E|E];
    destruct (N.eqb_spec b0 237) as [F|F];
    try specialize (L E); try specialize (U F);
    try (exfalso; lia); decide_tests; reflexivity.
Qed.

Lemma utf8_decode_at_4 (pos b0 b1 b2 b3 : N) (rest : bytes) :
  240 <= b0 < 245 -> 128 <= b1 < 192 -> 128 <= b2 < 192 ->
  128 <= b3 < 192 ->
  (b0 = 240 -> 144 <= b1) -> (b0 = 244 -> b1 <= 143) ->
  utf8_decode_at object pos (b0 :: b1 :: b2 :: b3 :: rest)
  = push ((b0 - 240) * 262144 + (b1 - 128) * 4096 + (b2 - 128) * 64
          + (b3 - 128))
      (utf8_decode_at object (pos + 4) rest).
Proof.
  intros H0 H1 H2 H3 L U. cbn [utf8_decode_at].
  unfold is_continuation, in_range.
  destruct (N.eqb_spec b0 240) as [E|E];
    destruct (N.eqb_spec b0 244) as [F|F];
    try specialize (L E); try specialize (U F);
    try (exfalso; lia); decide_tests; reflexivity.
Qed.

Lemma utf8_decode_encode_char (c : N) (rest : bytes) :
  scalar c ->
  forall pos, exists pos',
    utf8_decode_at object pos (utf8_encode_char c ++ rest)
    = push c (utf8_decode_at object pos' rest).
Proof.
  intros [Hmax Hsur] pos. unfold utf8_encode_char.
  destruct (N.ltb_spec c 128) as [H1|H1].
  { exists (pos + 1). cbn [app]. apply utf8_decode_at_1, H1. }
  destruct (N.ltb_spec c 2048) as [H2|H2].
  { exists (pos + 2). cbn [app]. rewrite utf8_decode_at_2 by lia.
    f_equal. lia. }
  destruct (N.ltb_spec c 65536) as [H3|H3].
  { exists (pos + 3). cbn [app]. rewrite utf8_decode_at_3 by lia.
    f_equal. lia. }
  exists (pos + 4). cbn [app]. rewrite utf8_decode_at_4 by lia.
  f_equal. lia.
Qed.

Lemma utf8_decode_encode (s : str) :
  Forall scalar s ->
  forall pos, utf8_decode_at object pos (utf8_encode s) = inr s.
Proof.
  induction 1 as [|c s Hc Hs IH]; intros pos; [reflexivity|].
  unfold utf8_encode in *. cbn [flat_map].
  destruct (utf8_decode_encode_char (flat_map utf8_encode_char s) Hc pos)
    as [pos' E].
  rewrite E, IH. reflexivity.
Qed.

End Decoding.

Lemma utf8_encode_char_bytes (c : N) :
  scalar c -> Forall (fun b => b < 256) (utf8_encode_char c).
Proof.
  intros [Hmax _]. unfold utf8_encode_char.
  destruct (N.ltb_spec c 128); [repeat constructor; lia|].
  destruct (N.ltb_spec c 2048); [repeat constructor; lia|].
  destruct (N.ltb_spec c 65536); repeat constructor; lia.
Qed.

Lemma utf8_encode_bytes (s : str) :
  Forall scalar s -> Forall (fun b => b < 256) (utf8_encode s).
Proof.
  induction 1 as [|c s Hc Hs IH]; [constructor|].
  unfold utf8_encode in *. cbn [flat_map].
  apply Forall_app. split; [apply utf8_encode_char_bytes, Hc|exact IH].
Qed.

Lemma utf8_encode_app (a b : str) :
  utf8_encode (a ++ b) = utf8_encode a ++ utf8_encode b.
Proof. unfold utf8_encode. apply flat_map_app. Qed.

(** *** Percent-encoding *)

Lemma hex_value_hex_digit (d : N) :
  d < 16 -> hex_value (hex_digit d) = Some d.
Proof.
  intros H. unfold hex_value, hex_digit.
  destruct (N.ltb_spec d 10); decide_tests; cbn [andb]; f_equal; lia.
Qed.

Lemma unquote_to_bytes_cons (c : N) (rest : str) :
  unquote_to_bytes (c :: rest)
  = if c =? 37 then
      match rest with
      | h :: l :: rest' =>
          match hex_value h, hex_value l with
          | Some a, Some b => (16 * a + b) :: unquote_to_bytes rest'
          | _, _ => c :: unquote_to_bytes rest
          end
      | _ => c :: unquote_to_bytes rest
      end
    else c :: unquote_to_bytes rest.
Proof. reflexivity. Qed.

Lemma literal_path_char (b : N) :
  is_alnum b || char_in b PATH_SEGMENT_SAFE = true ->
  path_char b /\ b <> 37.
Proof.
  intros H. apply orb_prop in H as [H|H].
  - unfold is_alnum in H.
    repeat (apply orb_prop in H; destruct H as [H|H]);
      apply andb_prop in H as [L U];
      apply N.leb_le in L; apply N.leb_le in U;
      unfold path_char; lia.
  - cbn in H.
    repeat (apply orb_prop in H; destruct H as [H|H]);
      try discriminate;
      apply N.eqb_eq in H; subst b; unfold path_char; lia.
Qed.

Lemma percent_encode_byte_chars (b : N) :
  b < 256 -> Forall path_char (percent_encode_byte PATH_SEGMENT_SAFE b).
Proof.
  intros H. unfold percent_encode_byte.
  destruct (is_alnum b || char_in b PATH_SEGMENT_SAFE) eqn:L.
  - constructor; [apply (literal_path_char _ L)|constructor].
  - unfold hex_digit, path_char.
    destruct (N.ltb_spec (b / 16) 10); destruct (N.ltb_spec (b mod 16) 10);
      repeat constructor; lia.
Qed.

Lemma unquote_percent_encode_byte (b : N) (rest : str) :
  b < 256 ->
  unquote_to_bytes (percent_encode_byte PATH_SEGMENT_SAFE b ++ rest)
  = b :: unquote_to_bytes rest.
Proof.
  intros H. unfold percent_encode_byte.
  destruct (is_alnum b || char_in b PATH_SEGMENT_SAFE) eqn:L.
  - cbn [app]. rewrite unquote_to_bytes_cons.
    destruct (literal_path_char _ L) as [_ N37].
    apply N.eqb_neq in N37. rewrite N37. reflexivity.
  - cbn [app]. rewrite unquote_to_bytes_cons. rewrite N.eqb_refl.
    rewrite !hex_value_hex_digit by lia. f_equal. lia.
Qed.

Lemma unquote_url_quote (s rest : str) :
  Forall scalar s ->
  unquote_to_bytes (url_quote s PATH_SEGMENT_SAFE ++ rest)
  = utf8_encode s ++ unquote_to_bytes rest.
Proof.
  intros H. apply utf8_encode_bytes in H. unfold url_quote.
  induction H as [|b bs Hb Hbs IH]; [reflexivity|].
  cbn [flat_map]. rewrite <- app_assoc, unquote_percent_encode_byte by exact Hb.
  rewrite IH. reflexivity.
Qed.

Lemma url_quote_chars (s : str) :
  Forall scalar s -> Forall path_char (url_quote s PATH_SEGMENT_SAFE).
Proof.
  intros H. apply utf8_encode_bytes in H. unfold url_quote.
  induction H as [|b bs Hb Hbs IH]; [constructor|].
  cbn [flat_map]. apply Forall_app.
  split; [apply percent_encode_byte_chars, Hb|exact IH].
Qed.

(** *** Paths *)

Lemma join_slashed (segs : list str) :
  segs <> [] -> u "/" ++ join "/" segs = slashed segs.
Proof.
  induction segs as [|s segs IH]; [contradiction|]. intros _.
  destruct segs as [|s' segs].
  - simpl. rewrite app_nil_r. reflexivity.
  - rewrite join_cons by discriminate.
    change (slashed (s :: s' :: segs)) with (47 :: s ++ slashed (s' :: segs)).
    rewrite <- IH by discriminate. reflexivity.
Qed.

Lemma unquote_slashed (segs : list str) :
  Forall (Forall scalar) segs ->
  unquote_to_bytes
    (slashed (map (fun s => url_quote s PATH_SEGMENT_SAFE) segs))
  = utf8_encode (slashed segs).
Proof.
  induction 1 as [|s segs Hs Hsegs IH]; [reflexivity|].
  cbn [map slashed flat_map app]. fold (slashed segs).
  fold (slashed (map (fun s => url_quote s PATH_SEGMENT_SAFE) segs)).
  rewrite unquote_to_bytes_cons. cbn [N.eqb Pos.eqb].
  rewrite unquote_url_quote by exact Hs. rewrite IH.
  change (47 :: s ++ slashed segs) with ([47] ++ s ++ slashed segs).
  rewrite !utf8_encode_app. reflexivity.
Qed.

Lemma slashed_chars (segs : list str) :
  Forall (Forall scalar) segs ->
  Forall path_char
    (slashed (map (fun s => url_quote s PATH_SEGMENT_SAFE) segs)).
Proof.
  induction 1 as [|s segs Hs Hsegs IH]; [constructor|].
  cbn [map slashed flat_map app]. constructor; [unfold path_char; lia|].
  apply Forall_app. split; [apply url_quote_chars, Hs|exact IH].
Qed.

Lemma slashed_scalar (segs : list str) :
  Forall (Forall scalar) segs -> Forall scalar (slashed segs).
Proof.
  induction 1 as [|s segs Hs Hsegs IH]; [constructor|].
  cbn [slashed flat_map app]. constructor; [unfold scalar; lia|].
  apply Forall_app. split; assumption.
Qed.

Lemma before_query_chars (path : str) :
  Forall path_char path -> before_query path = path.
Proof.
  induction 1 as [|c path [_ Hc] Hp IH]; [reflexivity|].
  cbn [before_query]. apply N.eqb_neq in Hc. rewrite Hc, IH. reflexivity.
Qed.

Lemma encode_ascii_chars (path : str) :
  Forall path_char path -> encode_ascii path = inr path.
Proof.
  intros H. unfold encode_ascii.
  assert (E : forall pos, first_unencodable 128 pos path = None).
  { induction H as [|c path [Hc _] Hp IH]; intros pos; [reflexivity|].
    cbn [first_unencodable]. apply N.ltb_lt in Hc. rewrite Hc. apply IH. }
  rewrite E. reflexivity.
Qed.

(** The default request factory of the specification reads the quoted
    path of any text segments back as the segments separated by
    slashes. *)
Theorem spec_codec_decodes (segs : list str) :
  Forall (Forall scalar) segs ->
  @decodes_to spec_imports
    (or_slash
       (join "/"
          (map (fun s => Codec.url_quote s PATH_SEGMENT_SAFE)
             (u "" :: segs))))
    ("/" ++ join "/" segs).
Proof.
  intros H. destruct segs as [|s segs].
  { repeat split. }
  set (segs' := s :: segs) in *.
  assert (Q : or_slash
                (join "/"
                   (map (fun s => Codec.url_quote s PATH_SEGMENT_SAFE)
                      (u "" :: segs')))
              = slashed (map (fun s => Codec.url_quote s PATH_SEGMENT_SAFE)
                           segs')).
  { rewrite <- join_slashed by discriminate. reflexivity. }
  rewrite Q, join_slashed by discriminate.
  pose proof (slashed_chars H) as C.
  unfold decodes_to. split; [apply encode_ascii_chars, C|].
  split; [reflexivity|]. split; [reflexivity|].
  change (path_info
            (Codec.Request_blank
               (slashed (map (fun s => Codec.url_quote s PATH_SEGMENT_SAFE)
                           segs')))
          = inr (slashed segs')).
  unfold Codec.Request_blank. cbn [path_info].
  rewrite before_query_chars by exact C.
  rewrite unquote_slashed by exact H.
  unfold Codec.utf8_decode.
  rewrite utf8_decode_encode by (apply slashed_scalar, H).
  reflexivity.
Qed.

End CodecFacts.

(* ================================================================== *)
(** ** The theorems at work on the example trees *)

Lemma chain_vhost_page : chain vhost_tree 3 [3; 2; 1; 0].
Proof.
  apply chain_parent with (parent := 2); [reflexivity|].
  apply chain_parent with (parent := 1); [reflexivity|].
  apply chain_parent with (parent := 0); [reflexivity|].
  apply chain_root. reflexivity.
Qed.

Lemma children_vhost : Forall (child_of_parent vhost_tree) [3; 2; 1; 0].
Proof.
  repeat constructor.
  - exists (entry "page" 3), (u "page"). repeat split.
  - exists (entry "root" 2), (u "root"). repeat split.
  - exists (entry "vh" 1), (u "vh"). repeat split.
Qed.

(** [page] of [vhost_tree] has the path ["/vh/root/page"], which
    resolves back to it. *)
Lemma round_trip_vhost_page :
  exists path c1 info c2,
    resource_path 4 vhost_tree 3 [] [] = (Return path, c1)
    /\ traverse 4 empty_registry vhost_tree (last [3; 2; 1; 0] 3)
         (PStr path) c1 = (Return info, c2)
    /\ context info = 3
    /\ view_name info = "".
Proof.
  apply (@resource_path_round_trip spec_imports 4 empty_registry vhost_tree
           3 [3; 2; 1; 0] T["vh"; "root"; "page"] []).
  - exact chain_vhost_page.
  - simpl. lia.
  - exact children_vhost.
  - reflexivity.
  - repeat constructor.
  - repeat split.
  - reflexivity.
  - reflexivity.
  - constructor.
Defined.

(** The absolute tuple [('', 'a', 'b')] joins to ["/a/b"]. *)
Lemma join_absolute_tuple :
  cache_ok []
  /\ exists c',
       _join_path_tuple [VStr ""; VStr "a"; VStr "b"] []
       = (Return ("/" ++ join "/" T["a"; "b"]), c')
       /\ cache_ok c'.
Proof.
  split; [constructor|].
  apply (proj2 (proj2 (@_join_path_tuple_formula spec_imports
                         [VStr ""; VStr "a"; VStr "b"] []
                         (Forall_nil _)))
           [VStr "a"; VStr "b"] T["a"; "b"]);
    reflexivity.
Defined.

(** C2, as worded, fails on a tuple without the empty first element:
    [('a', 'b')] joins to ["a/b"], not to ["/a/b"]. *)
Lemma join_relative_tuple_has_no_leading_slash :
  fst (_join_path_tuple [VStr "a"; VStr "b"] []) = Return (u "a/b")
  /\ fst (_join_path_tuple [VStr "a"; VStr "b"] [])
     <> Return ("/" ++ join "/"
                  (map (fun x => url_quote x PATH_SEGMENT_SAFE)
                     T["a"; "b"])).
Proof. split; [reflexivity|discriminate]. Qed.

Lemma missing_child_in_bare_tree :
  exists info,
    ResourceTreeTraverser_call bare_tree 0 (Request_blank "/x/y") = inr info
    /\ context info = last [] 0
    /\ view_name info = "x"
    /\ subpath info = T["y"].
Proof.
  apply (proj1 (@missing_child_ends_walk spec_imports) bare_tree 0
           (Request_blank "/x/y") "/x/y" [] [] "/x/y" (-1)%Z
           [] "x" T["y"] [] (fun _ => None));
    try reflexivity.
  discriminate.
Defined.

Lemma view_selector_in_leaf_tree :
  exists info,
    ResourceTreeTraverser_call leaf_tree 0 (Request_blank "/a/@@edit")
    = inr info
    /\ context info = last [1] 0
    /\ view_name info = slice_from (u "@@edit") 2
    /\ subpath info = [].
Proof.
  apply (proj1 (@view_selector_ends_walk spec_imports) leaf_tree 0
           (Request_blank "/a/@@edit") "/a/@@edit" [] [] "/a/@@edit" (-1)%Z
           T["a"] "@@edit" [] [1]);
    reflexivity.
Defined.

(** The path ["/%FF"] percent-decodes to a byte that opens no UTF-8
    sequence. *)
Lemma undecodable_path_raises :
  traversal_path (inl (u "/%FF"))
  = inl (URLDecodeError
           (mkUnicodeError "utf-8" [47; 255]%N 1 2 "invalid start byte"))
  /\ fst (traverse 1 empty_registry bare_tree 0 (PStr "/%FF") [])
     = Raise (URLDecodeError
                (mkUnicodeError "utf-8" [47; 255]%N 1 2
                   "invalid start byte")).
Proof.
  split.
  - apply (proj1 (proj2 (@decode_failure_aborts spec_imports))
             "/%FF" "/%FF" [47; 255]%N
             (mkUnicodeError "utf-8" [47; 255]%N 1 2 "invalid start byte"));
      reflexivity.
  - reflexivity.
Defined.

(** In [leaf_tree] the path ["/a/b"] leaves the view name ["b"]. *)
Lemma find_resource_leftover_raises :
  find_resource 1 empty_registry leaf_tree 0 (PStr "/a/b") []
  = (Raise (KeyError (NoSubelement 1 "b")), []).
Proof.
  apply (proj1 (proj1 (@find_resource_raises_iff_view_name spec_imports 1
                         empty_registry leaf_tree 0 (PStr "/a/b") [])
                  (mkInfo 1 "b" T[] T["a"] 0 T[] 0) [] eq_refl)).
  discriminate.
Defined.



(** [page] of [vhost_tree] has the physical path ["/vh/root/page/"]. *)
Lemma physical_path_of_vhost_page :
  exists R c',
    ResourceURL_init 4 vhost_tree 3 (mkRequest [] None (inr (u "/"))) []
    = (Return R, c')
    /\ cache_ok c'
    /\ (__parent__ (vhost_tree 3) = None -> physical_path R = "/")
    /\ (__parent__ (vhost_tree 3) <> None ->
        physical_path R = join "/" T[""; "vh"; "root"; "page"] ++ "/"
        /\ fst (_join_path_tuple
                  (rev (map (name_or_empty vhost_tree) [3; 2; 1; 0])
                   ++ [VStr ""]) c')
           = Return (physical_path R)).
Proof.
  apply (@physical_path_of_resource spec_imports 4 vhost_tree 3
           (mkRequest [] None (inr (u "/"))) [] [3; 2; 1; 0]
           T[""; "vh"; "root"; "page"]).
  - exact chain_vhost_page.
  - simpl. lia.
  - constructor.
  - reflexivity.
  - reflexivity.
  - discriminate.
Defined.

(** The integer [5] is quoted as the text ["5"]. *)
Lemma quote_path_segment_of_5 :
  exists c',
    quote_path_segment (VInt 5) PATH_SEGMENT_SAFE []
    = (Return (url_quote (str_ (VInt 5)) PATH_SEGMENT_SAFE), c')
    /\ cache_ok c'
    /\ fst (quote_path_segment (VStr (str_ (VInt 5))) PATH_SEGMENT_SAFE c')
       = Return (url_quote (str_ (VInt 5)) PATH_SEGMENT_SAFE).
Proof.
  apply (@quote_path_segment_coerces_non_text spec_imports (VInt 5)
           PATH_SEGMENT_SAFE []).
  - constructor.
  - reflexivity.
Defined.

(* ================================================================== *)
(** ** More of the module: lineage walks *)

Lemma chain_suffix (t : Tree) (resource : node) (locations : list node)
  (loc : node) :
  chain t resource locations ->
  In loc locations ->
  exists pre suf, locations = pre ++ suf /\ chain t loc suf.
Proof.
  induction 1 as [r Hr|r p l Hp Hc IH]; intros Hin.
  - destruct Hin as [<-|[]]. exists [], [r]. split; [reflexivity|].
    apply chain_root, Hr.
  - destruct Hin as [<-|Hin].
    + exists [], (r :: l). split; [reflexivity|].
      eapply chain_parent; eassumption.
    + destruct (IH Hin) as (pre & suf & -> & Hs).
      exists (r :: pre), suf. split; [reflexivity|exact Hs].
Qed.

Lemma chain_head (t : Tree) (resource : node) (locations : list node) :
  chain t resource locations -> exists rest, locations = resource :: rest.
Proof. destruct 1; eexists; reflexivity. Qed.

Lemma last_app_nonempty {A} (pre suf : list A) (d d' : A) :
  suf <> [] -> last (pre ++ suf) d = last suf d'.
Proof.
  intros H. destruct (exists_last H) as (l & x & ->).
  rewrite app_assoc, !last_last. reflexivity.
Qed.

Section LineageWalks.
Context {I : Imports}.

(** X1.  On a finite chain of parents [find_root] returns the resource
    the chain ends at: it has no parent, it is its own root, and it is the
    root of every resource of the chain. *)
Theorem find_root_of_chain (fuel : nat) (t : Tree) (resource : node)
  (locations : list node) (c : Cache) :
  chain t resource locations ->
  List.length locations <= fuel ->
  exists top,
    find_root fuel t resource c = (Return top, c)
    /\ top = last locations resource
    /\ In top locations
    /\ __parent__ (t top) = None
    /\ (forall loc,
          In loc locations -> find_root fuel t loc c = (Return top, c)).
Proof.
  intros Hc Hf. exists (last locations resource).
  split; [apply find_root_chain; assumption|].
  split; [reflexivity|].
  pose proof (chain_not_nil Hc) as Hne.
  split.
  { destruct (exists_last Hne) as (l & x & ->).
    rewrite last_last. apply in_or_app. right. left. reflexivity. }
  split; [apply (find_root_loop_chain resource Hc)|].
  intros loc Hin.
  destruct (@chain_suffix t resource locations loc Hc Hin)
    as (pre & suf & -> & Hs).
  rewrite (@find_root_chain t loc suf fuel c Hs).
  - f_equal. f_equal. symmetry.
    apply last_app_nonempty, (chain_not_nil Hs).
  - rewrite length_app in Hf. lia.
Qed.

Lemma find_interface_loop_chain (t : Tree) (test : node -> bool)
  (resource : node) (locations : list node) :
  chain t resource locations ->
  forall fuel, List.length locations <= fuel ->
  find_interface_loop fuel t test resource
  = Return (first_match test locations).
Proof.
  induction 1 as [r Hr|r p l Hp Hc IH]; intros [|fuel] Hf; simpl in *;
    try lia.
  - destruct (test r); [reflexivity|]. rewrite Hr. reflexivity.
  - destruct (test r); [reflexivity|]. rewrite Hp. apply IH. lia.
Qed.

Lemma first_match_some (test : node -> bool) (locations : list node)
  (loc : node) :
  first_match test locations = Some loc ->
  test loc = true
  /\ exists pre suf,
       locations = pre ++ loc :: suf
       /\ Forall (fun x => test x = false) pre.
Proof.
  induction locations as [|x l IH]; simpl; [discriminate|].
  destruct (test x) eqn:T.
  - intros [= <-]. split; [exact T|]. exists [], l. split; [reflexivity|].
    constructor.
  - intros H. destruct (IH H) as (Hl & pre & suf & -> & Hpre).
    split; [exact Hl|]. exists (x :: pre), suf. split; [reflexivity|].
    constructor; assumption.
Qed.

Lemma first_match_none (test : node -> bool) (locations : list node) :
  first_match test locations = None
  <-> Forall (fun x => test x = false) locations.
Proof.
  induction locations as [|x l IH]; simpl.
  - split; [constructor|reflexivity].
  - destruct (test x) eqn:T.
    + split; [discriminate|]. intros H. apply Forall_inv in H. congruence.
    + rewrite IH. split.
      * intros H. constructor; assumption.
      * intros H. apply Forall_inv_tail in H. exact H.
Qed.

(** X2.  [find_interface] returns the first resource of the lineage that
    is an instance of the class (provides the interface): every resource
    before it in the lineage fails the test, and the answer is [None]
    exactly when every resource of the lineage fails it.  A resource that
    passes the test itself is returned without a look at its parents. *)
Theorem find_interface_first_in_lineage (fuel : nat) (t : Tree)
  (types : Typing) (resource : node) (class_or_iface : class_or_interface)
  (locations : list node) (c : Cache) :
  let test :=
    match class_or_iface with
    | AnInterface iface => providedBy types iface
    | AClass cls => fun arg => isinstance types arg cls
    end in
  chain t resource locations ->
  List.length locations <= fuel ->
  exists found,
    find_interface fuel t types resource class_or_iface c = (Return found, c)
    /\ (forall loc,
          found = Some loc ->
          test loc = true
          /\ exists pre suf,
               locations = pre ++ loc :: suf
               /\ Forall (fun x => test x = false) pre)
    /\ (found = None <-> Forall (fun x => test x = false) locations)
    /\ (test resource = true -> found = Some resource).
Proof.
  intros test Hc Hf. exists (first_match test locations).
  split.
  { unfold find_interface. fold test.
    rewrite (find_interface_loop_chain test Hc Hf). reflexivity. }
  split; [intros loc; apply first_match_some|].
  split; [apply first_match_none|].
  intros T. destruct (chain_head Hc) as [rest ->]. simpl. rewrite T.
  reflexivity.
Qed.

(** X3.  The path tuple of a resource has one element per resource of
    its lineage; extra elements are appended to it; it begins with the
    empty string when the root carries no name; and the tuple of a
    resource is the tuple of its parent followed by its own name. *)
Theorem resource_path_tuple_structure (fuel : nat) (t : Tree)
  (resource : node) (locations : list node) (elements : list value)
  (c : Cache) :
  chain t resource locations ->
  List.length locations <= fuel ->
  exists tuple,
    resource_path_tuple fuel t resource [] c = (Return tuple, c)
    /\ resource_path_tuple fuel t resource elements c
       = (Return (tuple ++ elements), c)
    /\ List.length tuple = List.length locations
    /\ (truthy (__name__ (t (last locations resource))) = false ->
        exists rest, tuple = VStr "" :: rest)
    /\ (forall parent,
          __parent__ (t resource) = Some parent ->
          exists ptuple,
            resource_path_tuple fuel t parent [] c = (Return ptuple, c)
            /\ tuple = ptuple ++ [name_or_empty t resource]).
Proof.
  intros Hc Hf. exists (rev (map (name_or_empty t) locations)).
  split.
  { rewrite (resource_path_tuple_chain [] c Hc Hf), app_nil_r. reflexivity. }
  split; [apply resource_path_tuple_chain; assumption|].
  split; [rewrite length_rev, length_map; reflexivity|].
  split.
  - intros Hname. pose proof (chain_not_nil Hc) as Hne.
    destruct (exists_last Hne) as (l & x & ->).
    rewrite last_last in Hname.
    rewrite map_app, rev_app_distr. simpl.
    unfold name_or_empty at 1. rewrite Hname. eexists. reflexivity.
  - intros parent Hp.
    inversion Hc as [r Hr Er El|r p l Hp' Hl Er El]; subst r; [congruence|].
    assert (p = parent) by congruence. subst p locations.
    exists (rev (map (name_or_empty t) l)). split; [|reflexivity].
    rewrite (resource_path_tuple_chain [] c Hl), app_nil_r; [reflexivity|].
    simpl in Hf. lia.
Qed.

(** X4.  Under a root without name, [resource_path] returns a slash
    followed by the quoted names below the root and the quoted extra
    elements, separated by slashes: the string always begins with a
    slash, and the elements are appended as further segments. *)
Theorem resource_path_format (fuel : nat) (t : Tree) (resource : node)
  (locations : list node) (elements rest : list value) (qs : list str)
  (c : Cache) :
  chain t resource locations ->
  List.length locations <= fuel ->
  cache_ok c ->
  rev (map (name_or_empty t) locations) = VStr "" :: rest ->
  url_quote "" PATH_SEGMENT_SAFE = "" ->
  quoted_each (rest ++ elements) = inr qs ->
  exists c',
    resource_path fuel t resource elements c
    = (Return ("/" ++ join "/" qs), c')
    /\ cache_ok c'.
Proof.
  intros Hc Hf Hok Hnames Hempty Q.
  unfold resource_path, bind.
  rewrite (resource_path_tuple_chain elements c Hc Hf), Hnames.
  destruct (_join_path_tuple_joined ((VStr "" :: rest) ++ elements) Hok)
    as (c' & E & Hc').
  exists c'. split; [|exact Hc']. rewrite E. unfold joined.
  change ((VStr "" :: rest) ++ elements)
    with (VStr "" :: (rest ++ elements)).
  rewrite (quoted_each_cons_text "" (rest ++ elements) Q), Hempty.
  simpl of_result. destruct qs as [|q qs]; reflexivity.
Qed.

End LineageWalks.

(* ================================================================== *)
(** ** More of the module: the splitter and the traverser *)

Lemma kept_segment_parts (s : str) :
  kept_segment s = true -> clean_segment s = true /\ char_in 47 s = false.
Proof.
  unfold kept_segment. intros H. apply andb_prop in H as [H1 H2].
  rewrite negb_true_iff in H2. auto.
Qed.

Lemma split_path_info_join_kept (segs : list str) :
  Forall (fun s => kept_segment s = true) segs ->
  split_path_info ("/" ++ join "/" segs) = segs
  /\ (segs <> [] -> split_path_info (join "/" segs) = segs).
Proof.
  intros H.
  assert (Hc : Forall (fun s => clean_segment s = true) segs).
  { eapply Forall_impl; [|exact H]. intros a Ha.
    apply (kept_segment_parts _ Ha). }
  assert (Hs : Forall (fun s => char_in 47 s = false) segs).
  { eapply Forall_impl; [|exact H]. intros a Ha.
    apply (kept_segment_parts _ Ha). }
  assert (J : segs <> [] ->
              fold_left clean_step (split 47 (join "/" segs)) [] = segs).
  { intros Hne. rewrite (split_join Hne Hs).
    apply fold_clean_step_clean_segments, Hc. }
  split.
  - rewrite split_path_info_unstripped.
    change (u "/" ++ join "/" segs) with (47%N :: join "/" segs).
    rewrite split_sep_cons. simpl.
    change (clean_step [] []) with (@nil str).
    destruct segs as [|s segs]; [reflexivity|]. apply J. discriminate.
  - intros Hne. rewrite split_path_info_unstripped. apply J, Hne.
Qed.

Lemma descend_app_eq (t : Tree) (ob : node) (a b : list str) :
  descend t ob (a ++ b)
  = match descend t ob a with
    | Some na =>
        match descend t (last na ob) b with
        | Some nb => Some (na ++ nb)
        | None => None
        end
    | None => None
    end.
Proof.
  revert ob; induction a as [|segment a IH]; intros ob; simpl.
  - destruct (descend t ob b); reflexivity.
  - destruct (str_eqb (slice_to segment 2) VIEW_SELECTOR); [reflexivity|].
    destruct (__getitem__ (t ob)) as [getitem|]; [|reflexivity].
    destruct (getitem segment) as [next|]; [|reflexivity].
    rewrite IH. destruct (descend t next a) as [na|]; [|reflexivity].
    rewrite last_cons.
    destruct (descend t (last na next) b); reflexivity.
Qed.

Lemma slice_to_app_length {A} (pre rest : list A) :
  slice_to (pre ++ rest) (-1 + Z.of_nat (List.length pre) + 1) = pre.
Proof.
  unfold slice_to.
  destruct (Z.ltb_spec (-1 + Z.of_nat (List.length pre) + 1) 0); [lia|].
  replace (Z.to_nat (-1 + Z.of_nat (List.length pre) + 1))
    with (List.length pre) by lia.
  rewrite firstn_app, firstn_all, Nat.sub_diag. simpl.
  apply app_nil_r.
Qed.

Lemma view_selector_split (segment : str) :
  slice_to segment 2 = VIEW_SELECTOR ->
  segment = VIEW_SELECTOR ++ slice_from segment 2.
Proof.
  intros H. rewrite <- H.
  change (slice_to segment 2) with (firstn 2 segment).
  change (slice_from segment 2) with (skipn 2 segment).
  symmetry. apply firstn_skipn.
Qed.

Section TraverserMore.
Context {I : Imports}.

(** X8.  A resource without [__getitem__] ends the walk like a missing
    child does: the context is that resource, the view name is the
    current segment, the subpath is what follows it, and [traversed] is
    the slice of the path tuple up to [vroot_idx + i + 1]. *)
Theorem missing_lookup_ends_walk (t : Tree) (self_root : node)
  (request : Request) (path : str) (subpath0 vroot_tuple : list str)
  (vpath : str) (vroot_idx : Z) (pre : list str) (segment : str)
  (rest : list str) (nodes : list node) :
  request_path request = inr (path, subpath0) ->
  request_vroot request path = inr (vroot_tuple, vpath, vroot_idx) ->
  split_path_info vpath = pre ++ segment :: rest ->
  descend t self_root pre = Some nodes ->
  slice_to segment 2 <> VIEW_SELECTOR ->
  __getitem__ (t (last nodes self_root)) = None ->
  exists info,
    ResourceTreeTraverser_call t self_root request = inr info
    /\ context info = last nodes self_root
    /\ view_name info = segment
    /\ subpath info = rest
    /\ traversed info
       = slice_to (split_path_info vpath)
           (vroot_idx + Z.of_nat (List.length pre) + 1).
Proof.
  intros P V S D Hsel G.
  rewrite (ResourceTreeTraverser_call_loop t self_root _ P V), S.
  erewrite traverse_loop_descend by exact D.
  simpl. apply str_eqb_neq in Hsel. rewrite Hsel, G.
  eexists. split; [reflexivity|]. simpl.
  repeat split. apply slice_from_app_cons.
Qed.

(** X9.  A request without route match and without virtual-root header
    whose path has no segment after normalisation (the empty path, ["/"],
    a missing [PATH_INFO], slashes and dots only) resolves to the root:
    empty view name, empty subpath, nothing traversed. *)
Theorem empty_path_resolves_to_root (t : Tree) (self_root : node)
  (request : Request) :
  matchdict request = None ->
  environ_get (environ request) VH_ROOT_KEY = None ->
  (exists k, path_info request = inl (KeyError k))
  \/ (exists p, path_info request = inr p /\ split_path_info p = []) ->
  ResourceTreeTraverser_call t self_root request
  = inr (mkInfo self_root "" [] [] self_root [] self_root).
Proof.
  intros M E H.
  assert (P : exists path,
             request_path request = inr (path, [])
             /\ split_path_info path = []).
  { unfold request_path. rewrite M. destruct H as [[k H]|(p & H & S)];
      rewrite H.
    - exists slash. split; reflexivity.
    - exists (or_slash p). split; [reflexivity|].
      unfold or_slash. destruct (str_eqb p ""); [reflexivity|exact S]. }
  destruct P as (path & P & S).
  rewrite (ResourceTreeTraverser_call_loop t self_root _ P
             (request_vroot_no_header _ _ E)), S.
  reflexivity.
Qed.

(** The loop, without virtual root, from a state reached by resolving
    [pre]. *)
Lemma traverse_loop_partition (t : Tree) (self_root : node)
  (subpath0 vroot_tuple vpath_tuple : list str) (segments : list str) :
  forall (pre : list str) (nodes : list node) (vroot : node),
    vpath_tuple = pre ++ segments ->
    descend t self_root pre = Some nodes ->
    let info :=
      traverse_loop t self_root subpath0 vroot_tuple vpath_tuple (-1)
        segments (last nodes self_root) vroot
        (Z.of_nat (List.length pre)) in
    exists nodes',
      descend t self_root (traversed info) = Some nodes'
      /\ context info = last nodes' self_root
      /\ ((view_name info = "" /\ traversed info = vpath_tuple
           /\ subpath info = subpath0)
          \/ (exists segment,
                traversed info ++ segment :: subpath info = vpath_tuple
                /\ descend t self_root (traversed info ++ [segment]) = None
                /\ (view_name info = segment
                    \/ segment = VIEW_SELECTOR ++ view_name info))).
Proof.
  induction segments as [|segment rest IH]; intros pre nodes vroot Hv D.
  - simpl. exists nodes. rewrite Hv, app_nil_r.
    split; [exact D|]. split; [reflexivity|]. left. auto.
  - assert (Stop : forall name,
               (descend t self_root (pre ++ [segment]) = None) ->
               (name = segment \/ segment = VIEW_SELECTOR ++ name) ->
               let info :=
                 early_return self_root vroot_tuple vpath_tuple (-1)
                   (last nodes self_root) vroot name
                   (Z.of_nat (List.length pre)) in
               exists nodes',
                 descend t self_root (traversed info) = Some nodes'
                 /\ context info = last nodes' self_root
                 /\ ((view_name info = "" /\ traversed info = vpath_tuple
                      /\ subpath info = subpath0)
                     \/ (exists segment0,
                           traversed info ++ segment0 :: subpath info
                           = vpath_tuple
                           /\ descend t self_root
                                (traversed info ++ [segment0]) = None
                           /\ (view_name info = segment0
                               \/ segment0
                                  = VIEW_SELECTOR ++ view_name info)))).
    { intros name Hnone Hname. unfold early_return.
      cbn [traversed subpath context view_name]. rewrite Hv.
      rewrite slice_to_app_length, slice_from_app_cons.
      exists nodes. split; [exact D|]. split; [reflexivity|].
      right. exists segment. auto. }
    assert (A : descend t self_root (pre ++ [segment])
                = match descend t (last nodes self_root) [segment] with
                  | Some nb => Some (nodes ++ nb)
                  | None => None
                  end).
    { rewrite descend_app_eq, D. reflexivity. }
    simpl in A. simpl traverse_loop.
    destruct (str_eqb (slice_to segment 2) VIEW_SELECTOR) eqn:Sel.
    { apply Stop; [exact A|]. right.
      apply view_selector_split, str_eqb_eq, Sel. }
    destruct (__getitem__ (t (last nodes self_root))) as [getitem|].
    2:{ apply Stop; [exact A|]. left. reflexivity. }
    destruct (getitem segment) as [next|].
    2:{ apply Stop; [exact A|]. left. reflexivity. }
    specialize (IH (pre ++ [segment]) (nodes ++ [next])
                  (if (Z.of_nat (List.length pre) =? -1)%Z then next
                   else vroot)).
    rewrite last_last, length_app in IH. simpl in IH.
    replace (Z.of_nat (List.length pre + 1))
      with (Z.of_nat (List.length pre) + 1)%Z in IH by lia.
    apply IH; [rewrite <- app_assoc; exact Hv|exact A].
Qed.

(** X10.  Without virtual-root header the traverser splits the path
    tuple in order: the segments in [traversed] resolve, one lookup each,
    to the context; then either the tuple is used up (empty view name, the
    subpath of the request), or the next segment does not resolve, gives
    the view name (itself, or itself without [@@]) and is followed by the
    subpath.  No segment is dropped or reordered, and the virtual root is
    the root. *)
Theorem traverser_partitions_path (t : Tree) (self_root : node)
  (request : Request) (path : str) (subpath0 : list str) :
  request_path request = inr (path, subpath0) ->
  environ_get (environ request) VH_ROOT_KEY = None ->
  exists info nodes,
    ResourceTreeTraverser_call t self_root request = inr info
    /\ descend t self_root (traversed info) = Some nodes
    /\ context info = last nodes self_root
    /\ virtual_root info = self_root
    /\ ((view_name info = "" /\ traversed info = split_path_info path
         /\ subpath info = subpath0)
        \/ (exists segment,
              traversed info ++ segment :: subpath info
              = split_path_info path
              /\ descend t self_root (traversed info ++ [segment]) = None
              /\ (view_name info = segment
                  \/ segment = VIEW_SELECTOR ++ view_name info))).
Proof.
  intros P E.
  rewrite (ResourceTreeTraverser_call_loop t self_root _ P
             (request_vroot_no_header _ _ E)).
  destruct (@traverse_loop_partition t self_root subpath0 [] 
              (split_path_info path) (split_path_info path) [] []
              self_root eq_refl eq_refl)
    as (nodes & D & C & K).
  eexists. exists nodes. split; [reflexivity|].
  split; [exact D|]. split; [exact C|]. split; [|exact K].
  apply virtual_root_passed. lia.
Qed.

(** X11.  With a route match the traverser does not read
    [request.path_info].  For a request without virtual-root header whose
    match holds a [*traverse] tuple of segments that [split_path_info]
    keeps (not empty, not [.], not [..], no slash), and when the walk from
    the root resolves every element (none begins with [@@], every lookup
    answers): whatever [path_info] holds, the context is the last resource
    of that walk, the view name is empty, [traversed] is the elements,
    the virtual root is the root, and the subpath is the one of the match
    ([*subpath] as it is, [{subpath}] split, empty when absent). *)
Theorem route_match_is_walked (t : Tree) (self_root : node)
  (request : Request) (md : Matchdict) (elements : list str)
  (nodes : list node) :
  matchdict request = Some md ->
  md_traverse md = Some (ATuple elements) ->
  environ_get (environ request) VH_ROOT_KEY = None ->
  Forall (fun s => kept_segment s = true) elements ->
  descend t self_root elements = Some nodes ->
  ResourceTreeTraverser_call t self_root request
  = inr (mkInfo (last nodes self_root) ""
           (match md_subpath md with
            | None => []
            | Some (ATuple tup) => tup
            | Some (AStr s) => split_path_info s
            end)
           elements self_root [] self_root).
Proof.
  intros M T E K D.
  assert (P : exists path,
             request_path request
             = inr (path,
                    match md_subpath md with
                    | None => []
                    | Some (ATuple tup) => tup
                    | Some (AStr s) => split_path_info s
                    end)
             /\ split_path_info path = elements).
  { unfold request_path. rewrite M, T. destruct elements as [|e els].
    - exists slash. split; reflexivity.
    - exists ("/" ++ join slash (e :: els)). split; [reflexivity|].
      apply (proj1 (split_path_info_join_kept K)). }
  destruct P as (path & P & S).
  rewrite (ResourceTreeTraverser_call_loop t self_root _ P
             (request_vroot_no_header _ _ E)), S.
  rewrite <- (app_nil_r elements) at 2.
  erewrite traverse_loop_descend by exact D.
  simpl. rewrite vroot_after_passed by lia. reflexivity.
Qed.

End TraverserMore.

(* ================================================================== *)
(** ** More of the module: [traverse] and [find_resource] *)

Lemma split_path_info_or_slash (p : str) :
  split_path_info (or_slash p) = split_path_info p.
Proof.
  unfold or_slash. destruct (str_eqb p "") eqn:E; [|reflexivity].
  apply str_eqb_eq in E. subst p. reflexivity.
Qed.


Section TraverseMore.
Context {I : Imports}.

(** [traverse] on a string, with the default request factory and
    traverser, when every segment of the decoded path resolves. *)
Lemma traverse_str_walk (fuel : nat) (reg : Registry) (t : Tree)
  (resource start : node) (path decoded : str) (nodes : list node)
  (c : Cache) :
  decodes_to path decoded ->
  (if startswith path "/"
   then find_root fuel t resource c = (Return start, c)
   else start = resource) ->
  queryUtility_IRequestFactory reg = None ->
  queryAdapter_ITraverser reg start = None ->
  descend t start (split_path_info decoded) = Some nodes ->
  traverse fuel reg t resource (PStr path) c
  = (Return (mkInfo (last nodes start) "" [] (split_path_info decoded)
               start [] start), c).
Proof.
  intros (Hascii & Hmd & Hvh & Hpi) Hstart Hrf Hta D.
  assert (RP : request_path (Request_blank path)
               = inr (or_slash decoded, [])).
  { unfold request_path. rewrite Hmd, Hpi. reflexivity. }
  pose proof (ResourceTreeTraverser_call_loop t start _ RP
                (request_vroot_no_header _ _ Hvh)) as W.
  rewrite split_path_info_or_slash in W.
  rewrite <- (app_nil_r (split_path_info decoded)) in W at 2.
  erewrite traverse_loop_descend in W by exact D.
  simpl in W. rewrite vroot_after_passed in W by lia.
  assert (S : forall m : M node,
             m c = (Return start, c) ->
             bind m
               (fun resource0 =>
                  let request_factory :=
                    match queryUtility_IRequestFactory reg with
                    | None => Request_blank
                    | Some factory => factory
                    end in
                  let request := request_factory path in
                  let traverser :=
                    match queryAdapter_ITraverser reg resource0 with
                    | None => ResourceTreeTraverser_call t resource0
                    | Some adapter => adapter
                    end in
                  lift (traverser request)) c
             = (Return (mkInfo (last nodes start) "" []
                          (split_path_info decoded) start [] start), c)).
  { intros m Hm. unfold bind. rewrite Hm. cbv zeta.
    rewrite Hrf, Hta. unfold lift. rewrite W. reflexivity. }
  unfold traverse, bind at 1 2. unfold ret at 1, lift at 1.
  rewrite Hascii. simpl of_result. cbv iota beta.
  destruct (startswith path "/"); apply S; [exact Hstart|].
  subst start. reflexivity.
Qed.

(** A non-empty tuple is traversed as the string it joins to. *)
Lemma traverse_tuple_as_str (fuel : nat) (reg : Registry) (t : Tree)
  (resource : node) (tuple : list value) (path : str) (c c1 : Cache) :
  tuple <> [] ->
  _join_path_tuple tuple c = (Return path, c1) ->
  traverse fuel reg t resource (PTuple tuple) c
  = traverse fuel reg t resource (PStr path) c1.
Proof.
  intros Hne J. destruct tuple as [|x rest]; [contradiction|].
  unfold traverse. unfold bind at 1. rewrite J.
  unfold bind at 3. reflexivity.
Qed.

Lemma traverse_str_unfold (fuel : nat) (reg : Registry) (t : Tree)
  (resource : node) (path : str) (c : Cache) :
  traverse fuel reg t resource (PStr path) c
  = match ascii_native_ path with
    | inl e => (Raise e, c)
    | inr _ =>
        bind (if startswith path "/" then find_root fuel t resource
              else ret resource)
          (traverse_from reg t path) c
    end.
Proof.
  unfold traverse, bind at 1 2. unfold ret at 1, lift at 1.
  destruct (ascii_native_ path) as [e|p] eqn:A; [reflexivity|].
  apply ascii_native_same in A. subst p. reflexivity.
Qed.

(** X7.  An absolute path is resolved from the root of the tree,
    whichever resource of the tree [traverse] or [find_resource] is given:
    the outcome is the one obtained from the root itself. *)
Theorem absolute_path_starts_at_root (fuel : nat) (reg : Registry)
  (t : Tree) (resource : node) (locations : list node) (path : str)
  (c : Cache) :
  chain t resource locations ->
  List.length locations <= fuel ->
  startswith path "/" = true ->
  traverse fuel reg t resource (PStr path) c
  = traverse fuel reg t (last locations resource) (PStr path) c
  /\ find_resource fuel reg t resource (PStr path) c
     = find_resource fuel reg t (last locations resource) (PStr path) c.
Proof.
  intros Hc Hf Hs.
  assert (T : traverse fuel reg t resource (PStr path) c
              = traverse fuel reg t (last locations resource) (PStr path) c).
  { rewrite !traverse_str_unfold, Hs.
    destruct (ascii_native_ path) as [e|p]; [reflexivity|].
    unfold bind. rewrite (find_root_chain c Hc Hf).
    pose proof (chain_last_root Hc) as Hr.
    rewrite (find_root_chain c Hr); [reflexivity|].
    simpl. pose proof (chain_not_nil Hc).
    destruct locations; [contradiction|simpl in Hf; lia]. }
  split; [exact T|]. rewrite !find_resource_traverse, T. reflexivity.
Qed.


(** X6.  A relative tuple is walked from the resource [find_resource]
    is given, without a look at the parents of that resource.  The tuple
    is not empty and its segments are text that [split_path_info] keeps
    (not empty, not [.], not [..], no slash); their quoted join does not
    begin with a slash and the request factory reads it back as the
    segments joined by slashes; no request factory and no traverser is
    registered; and the walk from the resource resolves every segment
    (none begins with [@@], every lookup answers).  Then [find_resource]
    returns the last resource of that walk, and the segment cache stays
    consistent. *)
Theorem find_resource_relative_tuple (fuel : nat) (reg : Registry)
  (t : Tree) (resource : node) (segs : list str) (nodes : list node)
  (c : Cache) :
  segs <> [] ->
  Forall (fun s => kept_segment s = true) segs ->
  descend t resource segs = Some nodes ->
  startswith
    (or_slash (join "/" (map (fun s => url_quote s PATH_SEGMENT_SAFE) segs)))
    "/" = false ->
  decodes_to
    (or_slash (join "/" (map (fun s => url_quote s PATH_SEGMENT_SAFE) segs)))
    (join "/" segs) ->
  queryUtility_IRequestFactory reg = None ->
  queryAdapter_ITraverser reg resource = None ->
  cache_ok c ->
  exists c',
    find_resource fuel reg t resource (PTuple (map VStr segs)) c
    = (Return (last nodes resource), c')
    /\ cache_ok c'.
Proof.
  intros Hne Hkept D Hrel Hdec Hrf Hta Hc.
  destruct (_join_path_tuple_joined (map VStr segs) Hc) as (c1 & E & Hc1).
  assert (J : joined (map VStr segs)
              = inr (or_slash
                       (join "/"
                          (map (fun s => url_quote s PATH_SEGMENT_SAFE)
                             segs)))).
  { unfold joined. rewrite quoted_each_text.
    destruct segs; [contradiction|reflexivity]. }
  rewrite J in E. simpl of_result in E.
  exists c1. split; [|exact Hc1].
  rewrite <- (proj2 (split_path_info_join_kept Hkept) Hne) in D.
  rewrite find_resource_traverse.
  assert (N0 : map VStr segs <> [])
    by (destruct segs; [contradiction|discriminate]).
  erewrite traverse_tuple_as_str; [|exact N0|exact E].
  erewrite traverse_str_walk with (start := resource);
    [|exact Hdec|rewrite Hrel; reflexivity|exact Hrf|exact Hta|exact D].
  reflexivity.
Qed.

End TraverseMore.

(* ================================================================== *)
(** ** More of the module: the cache, [ResourceURL], [virtual_root] *)

Lemma startswith_split (s p : str) :
  startswith s p = true -> s = p ++ skipn (List.length p) s.
Proof.
  revert s; induction p as [|y p IH]; intros s; simpl; [reflexivity|].
  destruct s as [|x s]; [discriminate|]. intros H.
  apply andb_prop in H as [Hx Hs]. apply N.eqb_eq in Hx. subst y.
  simpl. f_equal. apply IH, Hs.
Qed.

Lemma startswith_app (p x : str) : startswith (p ++ x) p = true.
Proof.
  induction p as [|y p IH]; simpl; [destruct x; reflexivity|].
  rewrite N.eqb_refl. exact IH.
Qed.

Lemma slice_from_nat {A} (l : list A) (n : nat) :
  slice_from l (Z.of_nat n) = skipn n l.
Proof.
  unfold slice_from. destruct (Z.ltb_spec (Z.of_nat n) 0); [lia|].
  rewrite Nat2Z.id. reflexivity.
Qed.

Lemma slice_to_drop_suffix {A} (h v : list A) :
  slice_to (h ++ v) (- Z.of_nat (List.length v))
  = match v with [] => [] | _ :: _ => h end.
Proof.
  unfold slice_to. destruct v as [|x v].
  - reflexivity.
  - destruct (Z.ltb_spec (- Z.of_nat (List.length (x :: v))) 0) as [H|H];
      [|simpl in H; lia].
    replace (Z.to_nat (Z.of_nat (List.length (h ++ x :: v))
                       + - Z.of_nat (List.length (x :: v))))
      with (List.length h) by (rewrite length_app; lia).
    rewrite firstn_app, firstn_all, Nat.sub_diag. simpl. apply app_nil_r.
Qed.

Lemma cache_get_cons (key key' : value * str) (r : str) (c : Cache) :
  cache_get ((key, r) :: c) key'
  = if value_eqb (fst key) (fst key') && str_eqb (snd key) (snd key')
    then Some r else cache_get c key'.
Proof. destruct key as [seg safe]. reflexivity. Qed.

Lemma key_eqb_eq (key key' : value * str) :
  value_eqb (fst key) (fst key') && str_eqb (snd key) (snd key') = true
  <-> key = key'.
Proof.
  destruct key as [a b], key' as [a' b']. simpl. split.
  - intros H. apply andb_prop in H as [H1 H2].
    apply value_eqb_eq in H1. apply str_eqb_eq in H2. congruence.
  - intros [= -> ->]. apply andb_true_intro. split.
    + apply value_eqb_eq. reflexivity.
    + apply str_eqb_eq. reflexivity.
Qed.

Section CacheAndURL.
Context {I : Imports}.

(** X12.  After a call of [quote_path_segment] that returned, no entry
    of the cache is gone; and for a segment that is text or bytes, the
    entries that were there keep their values, and the same call again
    returns the same string and leaves the cache as it is. *)
Theorem quote_path_segment_caches (segment : value) (safe r : str)
  (c c' : Cache) :
  quote_path_segment segment safe c = (Return r, c') ->
  (forall key v, cache_get c key = Some v ->
                 exists v', cache_get c' key = Some v')
  /\ (is_text_or_bytes segment = true ->
      (forall key v, cache_get c key = Some v -> cache_get c' key = Some v)
      /\ quote_path_segment segment safe c' = (Return r, c')).
Proof.
  unfold quote_path_segment.
  destruct (cache_get c (segment, safe)) as [r0|] eqn:G.
  - intros [= <- <-]. split; [intros key v H; eauto|].
    intros _. split; [auto|]. rewrite G. reflexivity.
  - destruct (native_ _) as [e|s] eqn:N; [discriminate|].
    intros [= <- <-]. split.
    + intros key v H. unfold cache_set. rewrite cache_get_cons.
      destruct (_ && _); eauto.
    + intros T. rewrite T in *. simpl negb in *. cbv iota in *.
      split.
      * intros key v H. unfold cache_set. rewrite cache_get_cons.
        destruct (_ && _) eqn:K; [|exact H].
        apply key_eqb_eq in K. subst key. congruence.
      * unfold cache_set. rewrite cache_get_cons.
        rewrite (proj2 (key_eqb_eq (segment, safe) (segment, safe)) eq_refl).
        reflexivity.
Qed.

(** X13.  The virtual path of [ResourceURL].  Without virtual-root
    header it is the physical path.  With a header it is the physical
    path without the header (trailing slashes trimmed) when the physical
    path begins with that non-empty header: the header followed by the
    virtual path is the physical path, and the virtual tuple is the empty
    string followed by the physical tuple without as many elements as the
    header has.  Otherwise it is the physical path. *)
Theorem ResourceURL_virtual_path (fuel : nat) (t : Tree) (resource : node)
  (request : Request) (c c' : Cache) (R : ResourceURL) :
  ResourceURL_init fuel t resource request c = (Return R, c') ->
  match environ_get (environ request) VH_ROOT_KEY with
  | None =>
      virtual_path R = physical_path R
      /\ virtual_path_tuple R = physical_path_tuple R
  | Some header =>
      let vroot_path := rstrip "/" header in
      if negb (str_eqb vroot_path "")
         && startswith (physical_path R) vroot_path
      then
        physical_path R = vroot_path ++ virtual_path R
        /\ virtual_path_tuple R
           = VStr ""
             :: skipn (List.length (split 47 vroot_path))
                  (physical_path_tuple R)
      else
        virtual_path R = physical_path R
        /\ virtual_path_tuple R = physical_path_tuple R
  end.
Proof.
  unfold ResourceURL_init. unfold bind at 1.
  destruct (resource_path_tuple fuel t resource [] c) as [[tuple|e|] c0];
    try discriminate.
  unfold bind at 1.
  destruct (_join_path_tuple tuple c0) as [[path|e|] c1]; try discriminate.
  destruct (negb (tuple_eqb tuple [VStr ""]));
    (destruct (environ_get (environ request) VH_ROOT_KEY) as [header|];
     [cbv zeta;
      destruct (negb (str_eqb (rstrip "/" header) "") && startswith _ _)
        eqn:B|]);
    intros [= <- <-]; cbn [virtual_path physical_path virtual_path_tuple
                            physical_path_tuple];
    rewrite ?B; try (split; reflexivity);
    apply andb_prop in B as [_ B];
    rewrite !slice_from_nat; (split; [|reflexivity]);
    apply startswith_split, B.
Qed.

Lemma ResourceURL_init_without_header (fuel : nat) (t : Tree)
  (resource : node) (request : Request) (c c' : Cache) (R : ResourceURL) :
  environ_get (environ request) VH_ROOT_KEY = None ->
  ResourceURL_init fuel t resource request c = (Return R, c') ->
  virtual_path R = physical_path R.
Proof.
  intros Hh. unfold ResourceURL_init. unfold bind at 1.
  destruct (resource_path_tuple fuel t resource [] c) as [[tuple|e|] c0];
    try discriminate.
  unfold bind at 1.
  destruct (_join_path_tuple tuple c0) as [[path|e|] c1]; try discriminate.
  rewrite Hh.
  destruct (negb (tuple_eqb tuple [VStr ""])); intros [= <- <-]; reflexivity.
Qed.

(** X14.  [virtual_root] on a URL adapter.  When the physical path is a
    non-empty prefix followed by a non-empty virtual path, the function
    resolves the prefix with [find_resource]; when the two paths are the
    same it returns [request.root], or the root [find_root] finds when
    the request has no such attribute.  With the default adapter and no
    virtual-root header the second case applies. *)
Theorem virtual_root_resolves_prefix (fuel : nat) (reg : Registry)
  (t : Tree) (resource : node) (request : Request)
  (request_root : option node) (R : ResourceURL) (c : Cache) :
  (forall prefix,
      prefix <> [] ->
      virtual_path R <> [] ->
      physical_path R = prefix ++ virtual_path R ->
      virtual_root_ fuel reg t resource request (Some R) request_root c
      = find_resource fuel reg t resource (PStr prefix) c)
  /\ (virtual_path R = physical_path R ->
      virtual_root_ fuel reg t resource request (Some R) request_root c
      = match request_root with
        | Some r => (Return r, c)
        | None => find_root fuel t resource c
        end)
  /\ (forall c0 c1,
        environ_get (environ request) VH_ROOT_KEY = None ->
        ResourceURL_init fuel t resource request c0 = (Return R, c1) ->
        virtual_root_ fuel reg t resource request None request_root c0
        = match request_root with
          | Some r => (Return r, c1)
          | None => find_root fuel t resource c1
          end).
Proof.
  assert (Same : forall c1,
             virtual_path R = physical_path R ->
             (let vpath := virtual_path R in
              let rpath := physical_path R in
              if negb (str_eqb rpath vpath) && endswith rpath vpath then
                let vroot_path :=
                  slice_to rpath (- Z.of_nat (List.length vpath)) in
                find_resource fuel reg t resource (PStr vroot_path)
              else
                match request_root with
                | Some request_root => ret request_root
                | None => find_root fuel t resource
                end) c1
             = match request_root with
               | Some r => (Return r, c1)
               | None => find_root fuel t resource c1
               end).
  { intros c1 E. cbv zeta. rewrite E, str_eqb_refl. simpl.
    destruct request_root; reflexivity. }
  split; [|split].
  - intros prefix Hp Hv E.
    unfold virtual_root_, bind, ret. cbv zeta. rewrite E.
    assert (N : str_eqb (prefix ++ virtual_path R) (virtual_path R) = false).
    { apply str_eqb_neq. intros H.
      apply (f_equal (@List.length N)) in H. rewrite length_app in H.
      destruct prefix; [contradiction|simpl in H; lia]. }
    rewrite N. unfold endswith. rewrite rev_app_distr, startswith_app.
    simpl. rewrite slice_to_drop_suffix.
    destruct (virtual_path R); [contradiction|reflexivity].
  - intros E. unfold virtual_root_, bind, ret. apply Same, E.
  - intros c0 c1 Hh HR. unfold virtual_root_, bind. rewrite HR.
    apply Same. exact (ResourceURL_init_without_header _ _ _ _ _ Hh HR).
Qed.

End CacheAndURL.

Lemma split_no_sep_inside (sep : N) (s : str) :
  Forall (fun w => char_in sep w = false) (split sep s).
Proof.
  induction s as [|c s IH]; simpl; [repeat constructor|].
  destruct (N.eqb_spec c sep) as [->|Hc].
  - constructor; [reflexivity|exact IH].
  - destruct (split sep s) as [|w ws]; [repeat constructor|].
    + unfold char_in. simpl. apply N.eqb_neq in Hc.
      rewrite N.eqb_sym, Hc. reflexivity.
    + inversion IH as [|? ? Hw Hws]; subst. constructor; [|exact Hws].
      unfold char_in in *. simpl. apply N.eqb_neq in Hc.
      rewrite N.eqb_sym, Hc. exact Hw.
Qed.

Lemma fold_clean_step_kept (segs acc : list str) :
  Forall (fun w => char_in 47 w = false) segs ->
  Forall (fun s => kept_segment s = true) acc ->
  Forall (fun s => kept_segment s = true) (fold_left clean_step segs acc).
Proof.
  intros H; revert acc; induction H as [|s segs Hs Hsegs IH]; intros acc Ha;
    simpl; [exact Ha|].
  apply IH. unfold clean_step.
  destruct (str_eqb s "") eqn:E1; simpl; [assumption|].
  destruct (str_eqb s ".") eqn:E2; [assumption|].
  destruct (str_eqb s "..") eqn:E3.
  - destruct acc; [assumption|]. apply Forall_removelast. assumption.
  - apply Forall_app. split; [assumption|].
    constructor; [|constructor].
    unfold kept_segment, clean_segment. rewrite E1, E2, E3, Hs. reflexivity.
Qed.

(** X15.  How [split_path_info] composes with growing the path: a
    further clean segment is appended to the tuple, a further [..]
    removes the last element of the tuple (none from the empty tuple),
    and a further [.] or slash changes nothing. *)
Theorem split_path_info_extends (path segment : str) :
  (kept_segment segment = true ->
   split_path_info (path ++ "/" ++ segment)
   = split_path_info path ++ [segment])
  /\ split_path_info (path ++ "/..") = removelast (split_path_info path)
  /\ split_path_info (path ++ "/.") = split_path_info path
  /\ split_path_info (path ++ "/") = split_path_info path.
Proof.
  assert (A : forall seg,
             split_path_info (path ++ 47%N :: seg)
             = fold_left clean_step (split 47 seg) (split_path_info path)).
  { intros seg. rewrite !split_path_info_unstripped.
    rewrite split_app_sep_mid, fold_left_app. reflexivity. }
  split; [|split; [|split]].
  - intros K. destruct (kept_segment_parts _ K) as [Hc Hs].
    change (path ++ u "/" ++ segment) with (path ++ 47%N :: segment).
    rewrite A, (split_no_sep _ _ Hs).
    apply (fold_clean_step_clean_segments (split_path_info path)).
    constructor; [exact Hc|constructor].
  - change (path ++ u "/..") with (path ++ 47%N :: u "..").
    rewrite A. simpl. unfold clean_step. simpl.
    destruct (split_path_info path); reflexivity.
  - change (path ++ u "/.") with (path ++ 47%N :: u ".").
    rewrite A. reflexivity.
  - change (path ++ u "/") with (path ++ 47%N :: u "").
    rewrite A. reflexivity.
Qed.

(** X16.  The segments [split_path_info] returns hold no slash, and
    the function is idempotent on its own results: joining the tuple with
    slashes behind a leading slash and splitting again gives the tuple
    back. *)
Theorem split_path_info_idempotent (path : str) :
  Forall (fun s => kept_segment s = true) (split_path_info path)
  /\ split_path_info ("/" ++ join "/" (split_path_info path))
     = split_path_info path.
Proof.
  assert (K : Forall (fun s => kept_segment s = true) (split_path_info path)).
  { unfold split_path_info.
    apply fold_clean_step_kept; [apply split_no_sep_inside|constructor]. }
  split; [exact K|]. apply (proj1 (split_path_info_join_kept K)).
Qed.

(** X17.  With the codec of the specification, [traversal_path] reads
    back the quoted path of any clean segments of text: the segments
    quoted with [url_quote] and joined with slashes behind a leading
    slash are returned as they were. *)
Theorem traversal_path_reads_quoted_path (segs : list str) :
  Forall (Forall Codec.scalar) segs ->
  Forall (fun s => kept_segment s = true) segs ->
  @traversal_path spec_imports
    (inl ("/" ++ join "/"
            (map (fun s => Codec.url_quote s PATH_SEGMENT_SAFE) segs)))
  = inr segs.
Proof.
  intros Hsc Hk. destruct segs as [|s segs]; [reflexivity|].
  set (segs' := s :: segs) in *.
  rewrite CodecFacts.join_slashed
    by (subst segs'; discriminate).
  pose proof (CodecFacts.slashed_chars Hsc) as C.
  unfold traversal_path.
  rewrite (CodecFacts.encode_ascii_chars C).
  change (@unquote_bytes_to_wsgi spec_imports) with Codec.unquote_to_bytes.
  rewrite (CodecFacts.unquote_slashed Hsc).
  unfold traversal_path_info, decode_path_info.
  assert (L : encode_latin1 (Codec.utf8_encode (Codec.slashed segs'))
              = inr (Codec.utf8_encode (Codec.slashed segs'))).
  { pose proof (CodecFacts.utf8_encode_bytes
                  (CodecFacts.slashed_scalar Hsc)) as B.
    unfold encode_latin1.
    assert (E : forall pos,
               first_unencodable 256 pos
                 (Codec.utf8_encode (Codec.slashed segs')) = None).
    { induction B as [|b bs Hb Hbs IH]; intros pos; [reflexivity|].
      cbn [first_unencodable]. apply N.ltb_lt in Hb. rewrite Hb. apply IH. }
    rewrite E. reflexivity. }
  rewrite L.
  change (@utf8_decode spec_imports) with Codec.utf8_decode.
  unfold Codec.utf8_decode.
  rewrite CodecFacts.utf8_decode_encode
    by (apply CodecFacts.slashed_scalar, Hsc).
  f_equal. rewrite <- CodecFacts.join_slashed by (subst segs'; discriminate).
  apply (proj1 (split_path_info_join_kept Hk)).
Qed.

(* ================================================================== *)
(** ** The further theorems at work on the example trees *)


Lemma chain_typed_b : chain typed_tree 2 [2; 1; 0].
Proof.
  apply chain_parent with (parent := 1); [reflexivity|].
  apply chain_parent with (parent := 0); [reflexivity|].
  apply chain_root. reflexivity.
Qed.

(** The root of [page] in [vhost_tree] is the resource [0]. *)
Lemma find_root_of_vhost_page :
  exists top,
    find_root 4 vhost_tree 3 [] = (Return top, [])
    /\ top = last [3; 2; 1; 0] 3
    /\ In top [3; 2; 1; 0]
    /\ __parent__ (vhost_tree top) = None
    /\ (forall loc,
          In loc [3; 2; 1; 0] ->
          find_root 4 vhost_tree loc [] = (Return top, [])).
Proof.
  apply (@find_root_of_chain 4 vhost_tree 3 [3; 2; 1; 0] []).
  - exact chain_vhost_page.
  - simpl. lia.
Defined.

(** From [b] in [typed_tree], the first resource that provides the
    interface is [a]. *)
Lemma find_interface_from_typed_b :
  exists found,
    find_interface 3 typed_tree typed_tree_types 2 (AnInterface 0) []
    = (Return found, [])
    /\ (forall loc,
          found = Some loc ->
          providedBy typed_tree_types 0 loc = true
          /\ exists pre suf,
               [2; 1; 0] = pre ++ loc :: suf
               /\ Forall (fun x => providedBy typed_tree_types 0 x = false)
                    pre)
    /\ (found = None
        <-> Forall (fun x => providedBy typed_tree_types 0 x = false)
              [2; 1; 0])
    /\ (providedBy typed_tree_types 0 2 = true -> found = Some 2).
Proof.
  apply (@find_interface_first_in_lineage 3 typed_tree typed_tree_types 2
           (AnInterface 0) [2; 1; 0] []).
  - exact chain_typed_b.
  - simpl. lia.
Defined.

(** The path tuple of [page] in [vhost_tree]. *)
Lemma path_tuple_of_vhost_page :
  exists tuple,
    resource_path_tuple 4 vhost_tree 3 [] [] = (Return tuple, [])
    /\ resource_path_tuple 4 vhost_tree 3 [VStr "edit"] []
       = (Return (tuple ++ [VStr "edit"]), [])
    /\ List.length tuple = List.length [3; 2; 1; 0]
    /\ (truthy (__name__ (vhost_tree (last [3; 2; 1; 0] 3))) = false ->
        exists rest, tuple = VStr "" :: rest)
    /\ (forall parent,
          __parent__ (vhost_tree 3) = Some parent ->
          exists ptuple,
            resource_path_tuple 4 vhost_tree parent [] [] = (Return ptuple, [])
            /\ tuple = ptuple ++ [name_or_empty vhost_tree 3]).
Proof.
  apply (@resource_path_tuple_structure 4 vhost_tree 3 [3; 2; 1; 0]
           [VStr "edit"] []).
  - exact chain_vhost_page.
  - simpl. lia.
Defined.

(** [resource_path(page, 'edit')] is ["/vh/root/page/edit"]. *)
Lemma resource_path_of_vhost_page_edit :
  exists c',
    resource_path 4 vhost_tree 3 [VStr "edit"] []
    = (Return ("/" ++ join "/" T["vh"; "root"; "page"; "edit"]), c')
    /\ cache_ok c'.
Proof.
  apply (@resource_path_format spec_imports 4 vhost_tree 3 [3; 2; 1; 0]
           [VStr "edit"] [VStr "vh"; VStr "root"; VStr "page"]
           T["vh"; "root"; "page"; "edit"] []).
  - exact chain_vhost_page.
  - simpl. lia.
  - constructor.
  - reflexivity.
  - reflexivity.
  - reflexivity.
Defined.


(** From [a] of [typed_tree], the tuple [('b',)] resolves to [b]. *)
Lemma find_resource_of_relative_b :
  exists c',
    find_resource 0 empty_registry typed_tree 1 (PTuple (map VStr T["b"])) []
    = (Return (last [2] 1), c')
    /\ cache_ok c'.
Proof.
  apply (@find_resource_relative_tuple spec_imports 0 empty_registry
           typed_tree 1 T["b"] [2] []).
  - discriminate.
  - repeat constructor.
  - reflexivity.
  - reflexivity.
  - repeat split.
  - reflexivity.
  - reflexivity.
  - constructor.
Defined.

(** From [page] of [vhost_tree], the path ["/vh"] is resolved from the
    root. *)
Lemma absolute_path_from_vhost_page :
  traverse 4 empty_registry vhost_tree 3 (PStr "/vh") []
  = traverse 4 empty_registry vhost_tree (last [3; 2; 1; 0] 3) (PStr "/vh") []
  /\ find_resource 4 empty_registry vhost_tree 3 (PStr "/vh") []
     = find_resource 4 empty_registry vhost_tree (last [3; 2; 1; 0] 3)
         (PStr "/vh") [].
Proof.
  apply (@absolute_path_starts_at_root spec_imports 4 empty_registry
           vhost_tree 3 [3; 2; 1; 0] "/vh" []).
  - exact chain_vhost_page.
  - simpl. lia.
  - reflexivity.
Defined.

(** Under a [DefaultRootFactory] root the first segment is the view
    name. *)
Lemma default_root_has_no_lookup :
  exists info,
    ResourceTreeTraverser_call default_root_tree 0 (Request_blank "/x/y")
    = inr info
    /\ context info = last [] 0
    /\ view_name info = "x"
    /\ subpath info = T["y"]
    /\ traversed info
       = slice_to (split_path_info "/x/y")
           (-1 + Z.of_nat (List.length (@nil str)) + 1).
Proof.
  apply (@missing_lookup_ends_walk spec_imports default_root_tree 0
           (Request_blank "/x/y") "/x/y" [] [] "/x/y" (-1)%Z
           [] "x" T["y"] []);
    try reflexivity.
  discriminate.
Defined.

(** The path ["/./"] resolves to the root of [leaf_tree]. *)
Lemma dot_path_resolves_to_root :
  ResourceTreeTraverser_call leaf_tree 0 (Request_blank "/./")
  = inr (mkInfo 0 "" [] [] 0 [] 0).
Proof.
  apply (@empty_path_resolves_to_root spec_imports leaf_tree 0
           (Request_blank "/./")).
  - reflexivity.
  - reflexivity.
  - right. exists (u "/./"). split; reflexivity.
Defined.

(** The path ["/a/b/c"] in [leaf_tree]. *)
Lemma partition_in_leaf_tree :
  exists info nodes,
    ResourceTreeTraverser_call leaf_tree 0 (Request_blank "/a/b/c")
    = inr info
    /\ descend leaf_tree 0 (traversed info) = Some nodes
    /\ context info = last nodes 0
    /\ virtual_root info = 0
    /\ ((view_name info = "" /\ traversed info = split_path_info "/a/b/c"
         /\ subpath info = [])
        \/ (exists segment,
              traversed info ++ segment :: subpath info
              = split_path_info "/a/b/c"
              /\ descend leaf_tree 0 (traversed info ++ [segment]) = None
              /\ (view_name info = segment
                  \/ segment = VIEW_SELECTOR ++ view_name info))).
Proof.
  apply (@traverser_partitions_path spec_imports leaf_tree 0
           (Request_blank "/a/b/c") "/a/b/c" []);
    reflexivity.
Defined.

(** A route match [*traverse = ('a',)], [{subpath} = 'x/y'] in
    [leaf_tree], whatever [PATH_INFO] holds. *)
Lemma route_match_in_leaf_tree :
  ResourceTreeTraverser_call leaf_tree 0 route_request
  = inr (mkInfo (last [1] 0) ""
           (match md_subpath (mkMatchdict (Some (ATuple T["a"]))
                                (Some (AStr "x/y"))) with
            | None => []
            | Some (ATuple tup) => tup
            | Some (AStr s) => split_path_info s
            end)
           T["a"] 0 [] 0).
Proof.
  apply (@route_match_is_walked spec_imports leaf_tree 0 route_request
           (mkMatchdict (Some (ATuple T["a"])) (Some (AStr "x/y")))
           T["a"] [1]).
  - reflexivity.
  - reflexivity.
  - reflexivity.
  - repeat constructor.
  - reflexivity.
Defined.

(** Quoting ["a b"] with another entry in the cache. *)
Lemma quote_a_b_caches :
  (forall key v,
      cache_get [((VStr "x", PATH_SEGMENT_SAFE), u "x")] key = Some v ->
      exists v',
        cache_get
          [((VStr "a b", PATH_SEGMENT_SAFE),
            url_quote "a b" PATH_SEGMENT_SAFE);
           ((VStr "x", PATH_SEGMENT_SAFE), u "x")] key = Some v')
  /\ (is_text_or_bytes (VStr "a b") = true ->
      (forall key v,
          cache_get [((VStr "x", PATH_SEGMENT_SAFE), u "x")] key = Some v ->
          cache_get
            [((VStr "a b", PATH_SEGMENT_SAFE),
              url_quote "a b" PATH_SEGMENT_SAFE);
             ((VStr "x", PATH_SEGMENT_SAFE), u "x")] key = Some v)
      /\ quote_path_segment (VStr "a b") PATH_SEGMENT_SAFE
           [((VStr "a b", PATH_SEGMENT_SAFE),
             url_quote "a b" PATH_SEGMENT_SAFE);
            ((VStr "x", PATH_SEGMENT_SAFE), u "x")]
         = (Return (url_quote "a b" PATH_SEGMENT_SAFE),
            [((VStr "a b", PATH_SEGMENT_SAFE),
              url_quote "a b" PATH_SEGMENT_SAFE);
             ((VStr "x", PATH_SEGMENT_SAFE), u "x")])).
Proof.
  exact (@quote_path_segment_caches spec_imports (VStr "a b")
           PATH_SEGMENT_SAFE (url_quote "a b" PATH_SEGMENT_SAFE)
           [((VStr "x", PATH_SEGMENT_SAFE), u "x")]
           _ eq_refl).
Defined.

(** The URL adapter of [page] behind the virtual root [/vh/root]: the
    virtual path is ["/page/"]. *)
Lemma virtual_path_of_vhost_page :
  physical_path vhost_page_url
  = rstrip "/" "/vh/root/" ++ virtual_path vhost_page_url
  /\ virtual_path_tuple vhost_page_url
     = VStr ""
       :: skipn (List.length (split 47 (rstrip "/" "/vh/root/")))
            (physical_path_tuple vhost_page_url).
Proof.
  exact (@ResourceURL_virtual_path spec_imports 4 vhost_tree 3 vhost_request
           [] (snd (ResourceURL_init 4 vhost_tree 3 vhost_request []))
           vhost_page_url eq_refl).
Defined.

(** The virtual root of [page] behind [/vh/root] is what ["/vh/root"]
    resolves to. *)
Lemma virtual_root_from_adapter :
  virtual_root_ 4 empty_registry vhost_tree 3 vhost_request
    (Some vhost_page_url) None []
  = find_resource 4 empty_registry vhost_tree 3 (PStr "/vh/root") [].
Proof.
  apply (proj1 (@virtual_root_resolves_prefix spec_imports 4 empty_registry
                  vhost_tree 3 vhost_request None vhost_page_url [])
           "/vh/root");
    [discriminate|discriminate|reflexivity].
Defined.

(** The quoted path of the segments ["a b"] and ["c"] is read back. *)
Lemma traversal_path_of_quoted_a_b :
  @traversal_path spec_imports
    (inl ("/" ++ join "/"
            (map (fun s => Codec.url_quote s PATH_SEGMENT_SAFE)
               T["a b"; "c"])))
  = inr T["a b"; "c"].
Proof.
  apply (@traversal_path_reads_quoted_path T["a b"; "c"]).
  - repeat (apply Forall_cons || apply Forall_nil); unfold Codec.scalar;
      simpl N_of_ascii; lia.
  - repeat constructor.
Defined.
